(** * Olympic dashboard: the name/country normalisation and aggregation pipeline

    A shallow embedding of the data pipeline of the three Vue components
    [SankeyDiagram.vue], [MedalHeatmap.vue] and [AthletesMap.vue]
    (everything between the CSV load and the drawing code), and the proofs of
    the properties stated about it.

    Conventions of the embedding.
    - A JavaScript string is a sequence of UTF-16 code units.  Here a string
      is a Rocq [string] whose characters are the code units U+0000..U+00FF;
      the white-space class and the lower-casing below are the ECMAScript
      ones restricted to that range.
    - A CSV row is an object whose fields have type [string | undefined]:
      a field is an [option string].
    - Counts are JavaScript numbers holding small non-negative integers:
      they are [nat]s. *)

From Stdlib Require Import Ascii String.
From stdpp Require Import gmap strings list fin_maps sorting.

Local Open Scope string_scope.
Local Open Scope nat_scope.
Local Open Scope list_scope.

(** ** JavaScript strings *)

Module JSString.

Definition code (c : ascii) : N := N_of_ascii c.

(** [\s] of a regular expression and the characters removed by
    [String.prototype.trim]: WhiteSpace and LineTerminator, that is TAB, LF,
    VT, FF, CR, SPACE and NO-BREAK SPACE below U+0100. *)
Definition isWhiteSpace (c : ascii) : bool :=
  let n := code c in
  ((n =? 9) || (n =? 10) || (n =? 11) || (n =? 12) || (n =? 13)
   || (n =? 32) || (n =? 160))%N.

(** Lower-casing of one code unit: A-Z, and the Latin-1 capitals
    U+00C0..U+00DE without the multiplication sign U+00D7. *)
Definition toLowerChar (c : ascii) : ascii :=
  let n := code c in
  if (((65 <=? n) && (n <=? 90))
      || ((192 <=? n) && (n <=? 222) && negb (n =? 215)))%N
  then ascii_of_N (n + 32) else c.

(** [s.toLowerCase()] *)
Fixpoint toLowerCase (s : string) : string :=
  match s with
  | EmptyString => EmptyString
  | String c r => String (toLowerChar c) (toLowerCase r)
  end.

Fixpoint trimStart (s : string) : string :=
  match s with
  | EmptyString => EmptyString
  | String c r => if isWhiteSpace c then trimStart r else s
  end.

Fixpoint trimEnd (s : string) : string :=
  match s with
  | EmptyString => EmptyString
  | String c r =>
      match trimEnd r with
      | EmptyString => if isWhiteSpace c then EmptyString else String c EmptyString
      | r' => String c r'
      end
  end.

(** [s.trim()] *)
Definition trim (s : string) : string := trimEnd (trimStart s).

(** The pieces of [s.split(/\s+/)].  [inRun] tells that the character before
    was part of a separator, so that a further white-space character extends
    that separator instead of starting a new one.  The result is never
    empty: the empty string splits into one empty piece. *)
Fixpoint splitWs (inRun : bool) (s : string) : list string :=
  match s with
  | EmptyString => [EmptyString]
  | String c r =>
      if isWhiteSpace c then
        if inRun then splitWs true r else EmptyString :: splitWs true r
      else
        match splitWs false r with
        | p :: ps => String c p :: ps
        | [] => [String c EmptyString]
        end
  end.

(** [s.split(/\s+/)] *)
Definition split (s : string) : list string := splitWs false s.

(** [`${parts[i]}`]: an index out of range reads [undefined], which a
    template literal prints as the word undefined. *)
Definition interpolate (parts : list string) (i : nat) : string :=
  nth i parts "undefined".

End JSString.

Import JSString.

(** ** Name normaliser ([normalizeName], the same in [SankeyDiagram.vue] and
       [MedalHeatmap.vue]) *)

Definition normalizeName (name : string) (reversed : bool) : string :=
  let parts := split (trim name) in
  if bool_decide (length parts < 2) then toLowerCase name
  else if reversed
       then toLowerCase (interpolate parts 1 +:+ " " +:+ interpolate parts 0)
       else toLowerCase (interpolate parts 0 +:+ " " +:+ interpolate parts 1).

(** ** Run-time errors

    The only way this code can raise is by using an [undefined] field where a
    string is needed ([name.trim()] on [undefined] is a TypeError).  [str]
    marks every such use; it raises in the model wherever the value is
    [undefined], which is at least wherever the JavaScript would. *)

Inductive Exc (A : Type) : Type :=
| Ok (a : A)
| TypeError.
Arguments Ok {A} a.
Arguments TypeError {A}.

#[global] Instance Exc_ret : MRet Exc := @Ok.
#[global] Instance Exc_bind : MBind Exc :=
  λ A B f m, match m with Ok a => f a | TypeError => TypeError end.

Definition str (v : option string) : Exc string :=
  match v with Some s => Ok s | None => TypeError end.

(** [!v] for [v : string | undefined]: undefined and the empty string are falsy. *)
Definition falsy (v : option string) : bool :=
  match v with None => true | Some s => bool_decide (s = "") end.

(** [rows.forEach(d => ...)] updating a local accumulator. *)
Fixpoint forEach {S A} (f : S → A → Exc S) (rows : list A) (acc : S) : Exc S :=
  match rows with
  | [] => Ok acc
  | d :: rows => acc' ← f acc d; forEach f rows acc'
  end.

(** [rows.map(d => ...).filter(d => d !== null)] *)
Definition mapNotNull {A B} (f : A → Exc (option B)) (rows : list A) : Exc (list B) :=
  r ← mapM f rows; Ok (omap id r).

(** ** Arrays: [sort] with a comparator, and the d3-array functions used

    [Array.prototype.sort] and the functions of the d3-array package are not
    code of the components; they are given here the behaviour their
    documentation fixes ([d3.rollups] after the grouping loop of d3-array). *)

Module JSArray.
Section sort.
Context {A : Type} (compareFn : A → A → Z).

(** [x] stood before every element of the sorted [l]: it goes in front of the
    first element it does not have to follow, so equal elements keep their
    order. *)
Fixpoint insert (x : A) (l : list A) : list A :=
  match l with
  | [] => [x]
  | y :: r => if decide (compareFn x y ≤ 0)%Z then x :: y :: r else y :: insert x r
  end.

(** [l.sort(compareFn)]: Array.prototype.sort is stable, and for a consistent
    comparator its result is the one stable sorted arrangement, whatever the
    algorithm of the engine; insertion sort computes it. *)
Fixpoint sort (l : list A) : list A :=
  match l with
  | [] => []
  | x :: r => insert x (sort r)
  end.
End sort.
End JSArray.

Module D3.
Section rollups.
Context {A K : Type} `{EqDecision K}.

(** One step of the grouping loop of d3-array: [group.push(value)] when the
    key was seen, [groups.set(key, [value])] (a new last entry) otherwise. *)
Fixpoint push (key : K) (value : A) (groups : list (K * list A)) : list (K * list A) :=
  match groups with
  | [] => [(key, [value])]
  | (k, group) :: rest =>
      if decide (k = key) then (k, group ++ [value]) :: rest
      else (k, group) :: push key value rest
  end.

Definition groups (values : list A) (keyof : A → K) : list (K * list A) :=
  foldl (λ gs value, push (keyof value) value gs) [] values.

(** [d3.rollups(values, reduce, keyof)] *)
Definition rollups {V} (values : list A) (reduce : list A → V) (keyof : A → K)
  : list (K * V) :=
  (λ kg, (kg.1, reduce kg.2)) <$> groups values keyof.
End rollups.

(** [d3.rollups(values, reduce, key1, key2)] *)
Definition rollups2 {A K1 K2 V} `{EqDecision K1, EqDecision K2}
    (values : list A) (reduce : list A → V) (key1 : A → K1) (key2 : A → K2)
  : list (K1 * list (K2 * V)) :=
  rollups values (λ v, rollups v reduce key2) key1.

(** [d3.sum(v, f)] *)
Definition sum {A} (v : list A) (f : A → nat) : nat := sum_list_with f v.
End D3.

(** ** Top-K selection
    [entries.sort((a, b) => b[1] - a[1]).slice(0, k).map(d => d[0])] *)

Definition byCountDesc {K} (a b : K * nat) : Z := (Z.of_nat b.2 - Z.of_nat a.2)%Z.

Definition topK {K} (entries : list (K * nat)) (k : nat) : list K :=
  (take k (JSArray.sort byCountDesc entries)).*1.

(** ** The top-K statement on the store

    [sort] is the one operation of the pipeline that writes into an existing
    array.  This is the statement
    [Array.from(d3.rollups(values, reduce, keyof).sort((a, b) => b[1] - a[1])
    .slice(0, k).map(d => d[0]))] on a store of arrays, where a reference is an
    index and a new array is appended: [d3.rollups], [slice], [map] and
    [Array.from] return new arrays, [sort] sorts the array it is called on. *)

Module Store.
Section store.
Context {A K : Type} `{EqDecision K}.

Inductive array :=
| Values (l : list A)
| Entries (l : list (K * nat))
| Keys (l : list K).

Definition sortInPlace (a : array) : array :=
  match a with
  | Entries l => Entries (JSArray.sort byCountDesc l)
  | _ => a
  end.

(** The reference of the resulting array of keys, and the store after. *)
Definition topKeys (values : nat) (reduce : list A → nat) (keyof : A → K)
    (k : nat) (st : list array) : nat * list array :=
  let vs := match st !! values with Some (Values l) => l | _ => [] end in
  let entries := length st in
  let st := st ++ [Entries (D3.rollups vs reduce keyof)] in
  let st := alter sortInPlace entries st in
  let sorted := match st !! entries with Some (Entries l) => l | _ => [] end in
  let st := st ++ [Entries (take k sorted)] in
  let st := st ++ [Keys (take k sorted).*1] in
  (length st, st ++ [Keys (take k sorted).*1]).
End store.
End Store.

(** ** CSV rows *)

Module Row.
Record t := mk {
  name : option string;
  country : option string;
  country_long : option string;
  discipline : option string;
  medal_type : option string
}.
End Row.

(** ** The name index of both medal charts
    [medallists.forEach(d => { if (!d.name || !d.country) return; ... })] *)

Definition indexRow (nameToCountry : gmap string string) (d : Row.t)
  : Exc (gmap string string) :=
  if falsy (Row.name d) || falsy (Row.country d) then Ok nameToCountry
  else
    n ← str (Row.name d);
    c ← str (Row.country d);
    Ok (<[normalizeName n true := c]> nameToCountry).

Definition buildIndex (medallists : list Row.t) : Exc (gmap string string) :=
  forEach indexRow medallists ∅.

(** ** [SankeyDiagram.vue] *)

Module SankeyDiagram.

Record Joined := mkJoined { country : string; discipline : string; medal : string }.
Record SankeyNode := mkNode { name : string }.
Record SankeyLink := mkLink { source : string; target : string; value : nat }.

(** The callback of [medals.map(...)]: [None] is its [null]. *)
Definition joinRow (nameToCountry : gmap string string) (d : Row.t)
  : Exc (option Joined) :=
  if falsy (Row.name d) || falsy (Row.discipline d) || falsy (Row.medal_type d)
  then Ok None
  else
    n ← str (Row.name d);
    match nameToCountry !! normalizeName n false with
    | None => Ok None
    | Some country =>
        if bool_decide (country = "") then Ok None
        else
          discipline ← str (Row.discipline d);
          medal ← str (Row.medal_type d);
          Ok (Some (mkJoined country discipline medal))
    end.

Definition join (nameToCountry : gmap string string) (medals : list Row.t)
  : Exc (list Joined) :=
  mapNotNull (joinRow nameToCountry) medals.

Definition topCountries (joined : list Joined) : list string :=
  topK (D3.rollups joined length country) 8.

Definition topDisciplines (joined : list Joined) : list string :=
  topK (D3.rollups joined length discipline) 8.

Definition filterTop (topCountries topDisciplines : list string)
    (joined : list Joined) : list Joined :=
  filter (λ d, country d ∈ topCountries ∧ discipline d ∈ topDisciplines) joined.

Definition filtered (joined : list Joined) : list Joined :=
  filterTop (topCountries joined) (topDisciplines joined) joined.

Definition countryToDiscipline (filtered : list Joined)
  : list (string * list (string * nat)) :=
  D3.rollups2 filtered length country discipline.

Definition disciplineToMedal (filtered : list Joined)
  : list (string * list (string * nat)) :=
  D3.rollups2 filtered length discipline medal.

(** The two nested [forEach] loops pushing one link per (source, target). *)
Definition pushLinks (rolled : list (string * list (string * nat)))
  : list SankeyLink :=
  st ← rolled; tc ← st.2; [mkLink st.1 tc.1 tc.2].

Definition linkMap (filtered : list Joined) : list SankeyLink :=
  pushLinks (countryToDiscipline filtered) ++ pushLinks (disciplineToMedal filtered).

(** [nodeNames.add(x)] on a [Set], kept in insertion order. *)
Definition add (x : string) (names : list string) : list string :=
  if decide (x ∈ names) then names else names ++ [x].

Definition nodeNames (links : list SankeyLink) : list string :=
  foldl (λ names l, add (target l) (add (source l) names)) [] links.

Definition loadData (medallists medals : list Row.t)
  : Exc (list SankeyNode * list SankeyLink) :=
  nameToCountry ← buildIndex medallists;
  joined ← join nameToCountry medals;
  let links := linkMap (filtered joined) in
  Ok (mkNode <$> nodeNames links, links).

End SankeyDiagram.

(** ** [MedalHeatmap.vue] *)

Module MedalHeatmap.

Record Joined := mkJoined { country : string; discipline : string }.

(** The fields [country] and [discipline] of a cell are [cell_country] and
    [cell_discipline] here, apart from those of a joined record. *)
Record HeatmapCell :=
  mkCell { cell_country : string; cell_discipline : string; value : nat }.

Definition joinRow (nameToCountry : gmap string string) (d : Row.t)
  : Exc (option Joined) :=
  if falsy (Row.name d) || falsy (Row.discipline d) then Ok None
  else
    n ← str (Row.name d);
    match nameToCountry !! normalizeName n false with
    | None => Ok None
    | Some country =>
        if bool_decide (country = "") then Ok None
        else
          discipline ← str (Row.discipline d);
          Ok (Some (mkJoined country discipline))
    end.

Definition join (nameToCountry : gmap string string) (medals : list Row.t)
  : Exc (list Joined) :=
  mapNotNull (joinRow nameToCountry) medals.

Definition rolled (joined : list Joined) : list (string * list (string * nat)) :=
  D3.rollups2 joined length country discipline.

Definition pushCells (rolled : list (string * list (string * nat)))
  : list HeatmapCell :=
  cd ← rolled; dc ← cd.2; [mkCell cd.1 dc.1 dc.2].

Definition cells (joined : list Joined) : list HeatmapCell :=
  pushCells (rolled joined).

Definition topCountries (cells : list HeatmapCell) : list string :=
  topK (D3.rollups cells (λ v, D3.sum v value) cell_country) 15.

Definition topDisciplines (cells : list HeatmapCell) : list string :=
  topK (D3.rollups cells (λ v, D3.sum v value) cell_discipline) 8.

Definition filterTop (topCountries topDisciplines : list string)
    (cells : list HeatmapCell) : list HeatmapCell :=
  filter (λ d, cell_country d ∈ topCountries ∧ cell_discipline d ∈ topDisciplines)
         cells.

Definition heatmapData (joined : list Joined) : list HeatmapCell :=
  let cells := cells joined in
  filterTop (topCountries cells) (topDisciplines cells) cells.

Definition loadHeatmapData (medallists medals : list Row.t)
  : Exc (list HeatmapCell) :=
  nameToCountry ← buildIndex medallists;
  joined ← join nameToCountry medals;
  Ok (heatmapData joined).

End MedalHeatmap.

(** ** [AthletesMap.vue] *)

Module AthletesMap.

(** The own properties of the object literal [COUNTRY_ALIASES]. *)
Definition COUNTRY_ALIASES : list (string * string) :=
  [ ("United States", "United States of America");
    ("USA", "United States of America");
    ("Great Britain", "United Kingdom");
    ("China", "China");
    ("People's Republic of China", "China");
    ("Korea", "South Korea");
    ("Republic of Korea", "South Korea");
    ("DPR Korea", "North Korea");
    ("Chinese Taipei", "Taiwan");
    ("Hong Kong, China", "Hong Kong");
    ("Russian Olympic Committee", "Russia");
    ("Russian Federation", "Russia");
    ("Islamic Republic of Iran", "Iran") ].

(** The property names an object literal inherits from [Object.prototype]. *)
Definition Object_prototype : list string :=
  [ "constructor"; "hasOwnProperty"; "isPrototypeOf"; "propertyIsEnumerable";
    "toLocaleString"; "toString"; "valueOf"; "__proto__";
    "__defineGetter__"; "__defineSetter__"; "__lookupGetter__"; "__lookupSetter__" ].

(** What [COUNTRY_ALIASES[raw] ?? raw] evaluates to: a string, or, for an
    inherited name, the built-in function or object of that name. *)
Inductive Value :=
| Str (s : string)
| Builtin (p : string).

#[global] Instance Value_eq_dec : EqDecision Value.
Proof. solve_decision. Defined.

#[global] Instance Value_countable : Countable Value.
Proof.
  refine (inj_countable'
            (λ v, match v with Str s => inl s | Builtin p => inr p end)
            (λ x, match x with inl s => Str s | inr p => Builtin p end) _).
  by intros [].
Defined.

(** The own property [raw] of [COUNTRY_ALIASES], if any. *)
Definition ownProperty (raw : string) : option string :=
  (list_to_map COUNTRY_ALIASES : gmap string string) !! raw.

(** [COUNTRY_ALIASES[raw]]: own property first, then the prototype;
    [None] is [undefined]. *)
Definition getProperty (raw : string) : option Value :=
  match ownProperty raw with
  | Some canonical => Some (Str canonical)
  | None => if decide (raw ∈ Object_prototype) then Some (Builtin raw) else None
  end.

(** [None] is the [null] result. *)
Definition normalizeCountry (country countryLong : option string) : option Value :=
  let raw := if falsy countryLong then country else countryLong in
  match raw with
  | None => None
  | Some r =>
      if bool_decide (r = "") then None
      else Some (default (Str r) (getProperty r))
  end.

(** [!name] for the result of [normalizeCountry]. *)
Definition falsyValue (name : option Value) : bool :=
  match name with
  | None => true
  | Some (Str s) => bool_decide (s = "")
  | Some (Builtin _) => false
  end.

Definition countRow (counts : gmap Value nat) (d : Row.t) : gmap Value nat :=
  let name := normalizeCountry (Row.country d) (Row.country_long d) in
  match name with
  | Some key =>
      if falsyValue name then counts
      else <[key := default 0 (counts !! key) + 1]> counts
  | None => counts
  end.

Definition loadAthletes (data : list Row.t) : gmap Value nat :=
  foldl countRow ∅ data.

End AthletesMap.

(** ** Definitions used to state the properties *)

(** Following the specification's words: the tokens of a name are its maximal
    runs of characters that are not white space.  [cutAll] cuts the string at
    every white-space character; the tokens are the pieces that are not
    empty. *)
Fixpoint cutAll (s : string) : list string :=
  match s with
  | EmptyString => [EmptyString]
  | String c r =>
      if isWhiteSpace c then EmptyString :: cutAll r
      else match cutAll r with
           | p :: ps => String c p :: ps
           | [] => [String c EmptyString]
           end
  end.

Definition tokens (s : string) : list string := filter (λ p, p ≠ "") (cutAll s).

(** The keys of a list in the order of their first occurrence. *)
Fixpoint firsts {K} `{EqDecision K} (l : list K) : list K :=
  match l with
  | [] => []
  | x :: r => x :: filter (λ y, y ≠ x) (firsts r)
  end.

(** Descending by count. *)
Definition countGe {K} (a b : K * nat) : Prop := b.2 ≤ a.2.

(** The (key1, key2, count) triples of a nested rollup, in the order in which
    the two nested loops of a component push them. *)
Definition triples {K1 K2} (rolled : list (K1 * list (K2 * nat)))
  : list (K1 * K2 * nat) :=
  st ← rolled; tc ← st.2; [(st.1, tc.1, tc.2)].

Definition cellOf (t : string * string * nat) : MedalHeatmap.HeatmapCell :=
  MedalHeatmap.mkCell t.1.1 t.1.2 t.2.

Definition linkOf (t : string * string * nat) : SankeyDiagram.SankeyLink :=
  SankeyDiagram.mkLink t.1.1 t.1.2 t.2.

(** A Sankey record without its medal is a heatmap record, and a
    country-to-discipline link read as a heatmap cell. *)
Definition forgetMedal (d : SankeyDiagram.Joined) : MedalHeatmap.Joined :=
  MedalHeatmap.mkJoined (SankeyDiagram.country d) (SankeyDiagram.discipline d).

Definition linkCell (l : SankeyDiagram.SankeyLink) : MedalHeatmap.HeatmapCell :=
  MedalHeatmap.mkCell (SankeyDiagram.source l) (SankeyDiagram.target l)
                      (SankeyDiagram.value l).

(** [entries] lists every key of the records once, with its total count. *)
Definition totals {A K} `{EqDecision K} (l : list A) (keyof : A → K)
    (entries : list (K * nat)) : Prop :=
  NoDup entries.*1
  ∧ ∀ k n, (k, n) ∈ entries
           ↔ (∃ r, r ∈ l ∧ keyof r = k) ∧ n = length (filter (λ r, keyof r = k) l).

(** A field that is present and not empty. *)
Definition present (v : option string) : option string :=
  match v with
  | Some s => if bool_decide (s = "") then None else Some s
  | None => None
  end.

(** What a medallist row contributes to the index under [key]: its country,
    when the row has a name normalising to [key] and a country. *)
Definition indexEntry (key : string) (d : Row.t) : option string :=
  n ← present (Row.name d);
  c ← present (Row.country d);
  if bool_decide (normalizeName n true = key) then Some c else None.

(** The joined record of a medal row: the indexed country with the row's own
    fields, when the row has all the fields its chart needs and its
    normalised name is in the index. *)
Definition sankeyRecord (nameToCountry : gmap string string) (d : Row.t)
  : option SankeyDiagram.Joined :=
  n ← present (Row.name d);
  discipline ← present (Row.discipline d);
  medal ← present (Row.medal_type d);
  country ← nameToCountry !! normalizeName n false;
  Some (SankeyDiagram.mkJoined country discipline medal).

Definition heatmapRecord (nameToCountry : gmap string string) (d : Row.t)
  : option MedalHeatmap.Joined :=
  n ← present (Row.name d);
  discipline ← present (Row.discipline d);
  country ← nameToCountry !! normalizeName n false;
  Some (MedalHeatmap.mkJoined country discipline).

(** Rows of the two medal tables. *)
Definition medallist (name country : string) : Row.t :=
  Row.mk (Some name) (Some country) None None None.

Definition medalRow (name discipline : string) (medal_type : option string) : Row.t :=
  Row.mk (Some name) None None (Some discipline) medal_type.

(** The effect of one medallist row on the index, without the error monad. *)
Definition indexStep (nameToCountry : gmap string string) (d : Row.t)
  : gmap string string :=
  match present (Row.name d), present (Row.country d) with
  | Some n, Some c => <[normalizeName n true := c]> nameToCountry
  | _, _ => nameToCountry
  end.

(** The label the country aliaser works from: the long label when it is given
    and not empty, otherwise the primary label when it is given and not
    empty. *)
Definition chosen (country countryLong : option string) : option string :=
  match present countryLong with
  | Some long => Some long
  | None => present country
  end.

(** Following the specification's words: [canonicalize] prefers [long] over
    [primary] when both are given, returns null when neither is present, and
    looks the chosen label up in the alias table, returning the canonical name
    if found and the raw label unchanged otherwise. *)
Definition canonicalize (primary long : option string) : option AthletesMap.Value :=
  match (match long with Some l => Some l | None => primary end) with
  | None => None
  | Some raw => Some (AthletesMap.Str (default raw (AthletesMap.ownProperty raw)))
  end.

(** The canonical country of an athlete row. *)
Definition countryOf (d : Row.t) : option AthletesMap.Value :=
  AthletesMap.normalizeCountry (Row.country d) (Row.country_long d).

Definition athlete (country : string) (country_long : option string) : Row.t :=
  Row.mk None (Some country) country_long None None.

(** ** The drawing code: what it derives from the loaded data

    Of [initHeatmap] and [initMap], the parts that compute on the data: the
    scale domains, the largest value, the band of a cell and the fill of a
    country.  Pixel positions and colours are floating-point work of d3 and
    are not modelled. *)

Module JSSet.
Section set.
Context {K : Type} `{EqDecision K}.

(** [s.add(x)] on a [Set], kept in insertion order. *)
Definition add (x : K) (s : list K) : list K :=
  if decide (x ∈ s) then s else s ++ [x].

(** [Array.from(new Set(values))] *)
Definition from (values : list K) : list K := foldl (λ s x, add x s) [] values.
End set.
End JSSet.

Module D3Scale.

(** [d3.max(values, valueof)]: the loop of d3-array; [None] is the
    [undefined] it returns for an empty array. *)
Definition max {A} (values : list A) (valueof : A → nat) : option nat :=
  foldl (λ max value,
           match max with
           | Some m => if decide (m < valueof value) then Some (valueof value) else Some m
           | None => Some (valueof value)
           end) None values.

(** The band of [x] in a [d3.scaleBand] of the given domain: the index of [x]
    among the distinct domain values, from which d3 computes the position;
    [None] is the [undefined] the scale returns outside its domain. *)
Definition band {K} `{EqDecision K} (domain : list K) (x : K) : option nat :=
  fst <$> list_find (λ y, y = x) (JSSet.from domain).

End D3Scale.

(** [initHeatmap] *)
Module HeatmapView.

Definition countries (heatmapData : list MedalHeatmap.HeatmapCell) : list string :=
  JSSet.from (MedalHeatmap.cell_country <$> heatmapData).

Definition disciplines (heatmapData : list MedalHeatmap.HeatmapCell) : list string :=
  JSSet.from (MedalHeatmap.cell_discipline <$> heatmapData).

(** [d3.max(heatmapData.value, d => d.value) ?? 0] *)
Definition maxValue (heatmapData : list MedalHeatmap.HeatmapCell) : nat :=
  default 0 (D3Scale.max heatmapData MedalHeatmap.value).

(** The bands [xScale(d.discipline)] and [yScale(d.country)] of the rectangle
    drawn for the cell [d]. *)
Definition rect (heatmapData : list MedalHeatmap.HeatmapCell)
    (d : MedalHeatmap.HeatmapCell) : option nat * option nat :=
  (D3Scale.band (disciplines heatmapData) (MedalHeatmap.cell_discipline d),
   D3Scale.band (countries heatmapData) (MedalHeatmap.cell_country d)).

End HeatmapView.

(** [initMap] *)
Module MapView.

(** [d3.max(Array.from(athleteCounts.value.values())) ?? 0] *)
Definition maxAthletes (athleteCounts : gmap AthletesMap.Value nat) : nat :=
  default 0 (D3Scale.max (map_to_list athleteCounts).*2 id).

(** The fill of a country shape: [colorScale(count)], or the grey ['#e0e0e0']. *)
Inductive Fill :=
| Scaled (count : nat)
| NoData.

(** [const count = athleteCounts.value.get(name);
     return count ? colorScale(count) : '#e0e0e0'] *)
Definition fill (athleteCounts : gmap AthletesMap.Value nat) (name : string) : Fill :=
  match athleteCounts !! AthletesMap.Str name with
  | Some count => if decide (count = 0) then NoData else Scaled count
  | None => NoData
  end.

End MapView.

(** ** Definitions used to state the further properties *)

(** The names at the two ends of the links, in the order the node loop meets
    them. *)
Definition endpoints (links : list SankeyDiagram.SankeyLink) : list string :=
  l ← links; [SankeyDiagram.source l; SankeyDiagram.target l].

(** No white-space character occurs in [s]. *)
Fixpoint spaceless (s : string) : Prop :=
  match s with
  | EmptyString => True
  | String c r => isWhiteSpace c = false ∧ spaceless r
  end.

(** A medal row that has a medal type. *)
Definition hasMedal (d : Row.t) : Prop := present (Row.medal_type d) ≠ None.

(** Sample records: ten medals of one discipline for nine countries, the
    first country having two. *)
Definition nineCountries : list SankeyDiagram.Joined :=
  (λ c, SankeyDiagram.mkJoined c "Judo" "Gold")
    <$> ["A"; "A"; "B"; "C"; "D"; "E"; "F"; "G"; "H"; "I"].

(** The first two tokens, when there are at least two. *)
Definition firstTwo (ts : list string) : option (string * string) :=
  match ts with
  | t0 :: t1 :: _ => Some (t0, t1)
  | _ => None
  end.

(** * Properties *)

(** ** Lists *)

Lemma filter_none {A} (P : A → Prop) `{∀ x, Decision (P x)} (l : list A) :
  (∀ x, x ∈ l → ¬ P x) → filter P l = [].
Proof.
  induction l as [|y r IH]; intros Hl; [done |].
  rewrite filter_cons_False by (apply Hl; left).
  apply IH. intros x Hx. apply Hl. by right.
Qed.

(** ** Name normaliser *)

Lemma toLowerCase_app (a b : string) :
  toLowerCase (a +:+ b) = toLowerCase a +:+ toLowerCase b.
Proof. induction a as [|c a IH]; simpl; [done | by rewrite IH]. Qed.

Lemma splitWs_nonempty (inRun : bool) (s : string) : splitWs inRun s ≠ [].
Proof.
  revert inRun; induction s as [|c r IH]; intros inRun; simpl; [done |].
  destruct (isWhiteSpace c).
  - destruct inRun; [apply IH | done].
  - by destruct (splitWs false r).
Qed.

Lemma cutAll_nonempty (s : string) : cutAll s ≠ [].
Proof.
  induction s as [|c r IH]; simpl; [done |].
  destruct (isWhiteSpace c); [done | by destruct (cutAll r)].
Qed.

(** Apart from empty pieces, [split] cuts where [cutAll] does. *)
Lemma splitWs_cutAll (s : string) :
  (∀ hd tl hd' tl', splitWs false s = hd :: tl → cutAll s = hd' :: tl' →
      hd = hd' ∧ filter (λ p, p ≠ "") tl = filter (λ p, p ≠ "") tl')
  ∧ filter (λ p, p ≠ "") (splitWs true s) = tokens s.
Proof.
  unfold tokens. induction s as [|c r [IH1 IH2]]; simpl.
  - split; [| done]. intros hd tl hd' tl' H1 H2. by simplify_eq.
  - destruct (isWhiteSpace c) eqn:Hc.
    + split.
      * intros hd tl hd' tl' H1 H2. by simplify_eq.
      * rewrite IH2, (filter_cons_False _ ""); [done |]. intros H. by apply H.
    + destruct (splitWs false r) as [|p ps] eqn:Hs;
        [by apply splitWs_nonempty in Hs |].
      destruct (cutAll r) as [|p' ps'] eqn:Ht; [by apply cutAll_nonempty in Ht |].
      destruct (IH1 p ps p' ps' eq_refl eq_refl) as [-> Hps].
      split.
      * intros hd tl hd' tl' H1 H2. by simplify_eq.
      * by rewrite !filter_cons_True, Hps by done.
Qed.

Lemma trimStart_tokens (s : string) : tokens (trimStart s) = tokens s.
Proof.
  unfold tokens. induction s as [|c r IH]; simpl; [done |].
  destruct (isWhiteSpace c) eqn:Hc; simpl; [| by rewrite Hc].
  rewrite IH, (filter_cons_False _ ""); [done |]. intros H. by apply H.
Qed.

Lemma trimEnd_cutAll (s : string) :
  ∃ n, cutAll s = cutAll (trimEnd s) ++ replicate n "".
Proof.
  induction s as [|c r [n IH]]; simpl; [by exists 0 |].
  destruct (trimEnd r) as [|c' r'] eqn:Hr; simpl in *.
  - destruct (isWhiteSpace c) eqn:Hc; simpl; rewrite ?Hc, IH; simpl.
    + by exists (S n).
    + by exists n.
  - destruct (isWhiteSpace c) eqn:Hc; simpl; rewrite ?Hc, IH; simpl.
    + by exists n.
    + exists n. destruct (isWhiteSpace c'); simpl; [done |].
      by destruct (cutAll r').
Qed.

Lemma trimEnd_tokens (s : string) : tokens (trimEnd s) = tokens s.
Proof.
  unfold tokens. destruct (trimEnd_cutAll s) as [n ->].
  rewrite filter_app. rewrite (filter_none _ (replicate n "")).
  - by rewrite app_nil_r.
  - intros p [-> _]%elem_of_replicate Hne. by apply Hne.
Qed.

Lemma trimEnd_idemp (s : string) : trimEnd (trimEnd s) = trimEnd s.
Proof.
  induction s as [|c r IH]; simpl; [done |].
  destruct (trimEnd r) as [|c' r'] eqn:Hr; simpl.
  - destruct (isWhiteSpace c) eqn:Hc; simpl; [done | by rewrite Hc].
  - simpl in IH. by rewrite IH.
Qed.

(** In a string that does not end with white space, only a leading separator
    leaves an empty piece. *)
Lemma splitWs_trimmed (s : string) :
  trimEnd s = s →
  Forall (λ p, p ≠ "") (tail (splitWs false s))
  ∧ (s ≠ "" → Forall (λ p, p ≠ "") (splitWs true s)).
Proof.
  induction s as [|c r IH]; simpl; [by split |].
  intros Hs.
  assert (r ≠ "" → trimEnd r = r) as Hr.
  { intros Hne. destruct (trimEnd r) eqn:Ht; [| congruence].
    destruct (isWhiteSpace c); [done | congruence]. }
  destruct (isWhiteSpace c) eqn:Hc.
  - assert (r ≠ "") as Hne.
    { intros ->. by simpl in Hs. }
    destruct (IH (Hr Hne)) as [_ IH2]. split; intros; by apply IH2.
  - assert (Forall (λ p, p ≠ "") (tail (splitWs false r))) as Htl.
    { destruct (decide (r = "")) as [->|Hne]; [by simpl |]. by apply IH, Hr. }
    destruct (splitWs false r) as [|p ps]; simpl in *.
    + split; [done |]. intros _. by repeat constructor.
    + split; [done |]. intros _. by constructor.
Qed.

(** The pieces of the trimmed name are its tokens; a name without tokens
    gives the single empty piece. *)
Lemma split_trim_tokens (name : string) :
  split (trim name) = match tokens name with [] => [""] | ts => ts end.
Proof.
  rewrite <- (trimStart_tokens name), <- (trimEnd_tokens (trimStart name)).
  fold (trim name). unfold split.
  pose proof (splitWs_trimmed (trim name) (trimEnd_idemp _)) as [Htl _].
  pose proof (splitWs_cutAll (trim name)) as [Hcut _].
  unfold tokens.
  destruct (splitWs false (trim name)) as [|hd tl] eqn:Hs;
    [by apply splitWs_nonempty in Hs |].
  destruct (cutAll (trim name)) as [|hd' tl'] eqn:Ht;
    [by apply cutAll_nonempty in Ht |].
  destruct (Hcut hd tl hd' tl' eq_refl eq_refl) as [<- Hf].
  simpl in Htl. rewrite filter_cons, <- Hf.
  assert (filter (λ p, p ≠ "") tl = tl) as ->.
  { clear -Htl. induction Htl as [|p tl Hp _ IH]; [done |].
    by rewrite filter_cons_True, IH. }
  case_decide as Hhd; [done |]. subst hd.
  destruct tl as [|p tl]; [done |]. exfalso.
  (* a trimmed string does not start with a separator *)
  unfold trim in Hs. clear -Hs.
  assert (∀ s, match trimEnd (trimStart s) with
               | String c _ => isWhiteSpace c = false
               | EmptyString => True
               end) as Hstart.
  { clear. induction s as [|c r IH]; simpl; [done |].
    destruct (isWhiteSpace c) eqn:Hc; [done |]. simpl.
    destruct (trimEnd r); by rewrite ?Hc. }
  specialize (Hstart name).
  destruct (trimEnd (trimStart name)) as [|c r]; simpl in Hs; [done |].
  rewrite Hstart in Hs. by destruct (splitWs false r).
Qed.

(** C3: [normalizeName] trims the name and splits it on runs of white space,
    which gives its tokens (one empty piece when there is none); with fewer
    than two tokens it returns the lower-cased input, otherwise the first two
    tokens lower-cased and joined by one space, swapped when [reversed] is
    set, whatever follows the second token; on the names of the specification
    it gives "jane doe", "madonna" and the empty key. *)
Theorem normalizeName_spec (name : string) (reversed : bool) :
  split (trim name) = match tokens name with [] => [""] | ts => ts end
  ∧ normalizeName name reversed =
      match tokens name with
      | token0 :: token1 :: _ =>
          if reversed then toLowerCase token1 +:+ " " +:+ toLowerCase token0
          else toLowerCase token0 +:+ " " +:+ toLowerCase token1
      | _ => toLowerCase name
      end
  ∧ normalizeName "Doe Jane" true = "jane doe"
  ∧ normalizeName "Jane Doe" false = "jane doe"
  ∧ normalizeName "Madonna" false = "madonna"
  ∧ normalizeName "" reversed = ""
  ∧ normalizeName "Doe Jane Maria" true = "jane doe".
Proof.
  split; [apply split_trim_tokens |].
  split; [| by destruct reversed].
  unfold normalizeName. rewrite split_trim_tokens.
  destruct (tokens name) as [|token0 [|token1 rest]]; try done.
  rewrite bool_decide_eq_false_2 by (simpl; lia).
  unfold interpolate; simpl.
  destruct reversed; by rewrite !toLowerCase_app.
Qed.

(** ** Stable sort and top-K *)

Section sort_facts.
Context {K : Type}.
Implicit Types (x : K * nat) (l : list (K * nat)).

Lemma insert_Permutation x l : JSArray.insert byCountDesc x l ≡ₚ x :: l.
Proof.
  induction l as [|y r IH]; simpl; [done |].
  case_decide; [done |]. by rewrite IH, Permutation_swap.
Qed.

Lemma sort_Permutation l : JSArray.sort byCountDesc l ≡ₚ l.
Proof.
  induction l as [|x r IH]; simpl; [done |].
  by rewrite insert_Permutation, IH.
Qed.

Lemma insert_sorted x l :
  StronglySorted countGe l → StronglySorted countGe (JSArray.insert byCountDesc x l).
Proof.
  induction 1 as [|y r Hr IH Hy]; simpl.
  - repeat constructor.
  - case_decide as Hxy; unfold byCountDesc in Hxy.
    + constructor; [by constructor |].
      constructor; [unfold countGe; lia |].
      eapply Forall_impl; [exact Hy |]. unfold countGe. intros; lia.
    + constructor; [done |].
      rewrite insert_Permutation. constructor; [unfold countGe; lia | done].
Qed.

Lemma sort_sorted l : StronglySorted countGe (JSArray.sort byCountDesc l).
Proof.
  induction l as [|x r IH]; simpl; [constructor | by apply insert_sorted].
Qed.

(** Stability: the entries of any one count keep their order. *)
Lemma insert_stable (n : nat) x l :
  filter (λ e, e.2 = n) (JSArray.insert byCountDesc x l)
  = filter (λ e, e.2 = n) (x :: l).
Proof.
  induction l as [|y r IH]; simpl; [done |].
  case_decide as Hxy; [done |]. unfold byCountDesc in Hxy.
  rewrite (filter_cons _ y), IH, !filter_cons.
  repeat case_decide; try done; lia.
Qed.

Lemma sort_stable (n : nat) l :
  filter (λ e, e.2 = n) (JSArray.sort byCountDesc l) = filter (λ e, e.2 = n) l.
Proof.
  induction l as [|x r IH]; simpl; [done |].
  by rewrite insert_stable, !filter_cons, IH.
Qed.

(** There is one stable descending arrangement: any sort meeting the
    contract of [Array.prototype.sort] returns what [JSArray.sort] does. *)
Lemma stable_sorted_unique l1 l2 :
  StronglySorted countGe l1 → StronglySorted countGe l2 →
  (∀ n, filter (λ e, e.2 = n) l1 = filter (λ e, e.2 = n) l2) →
  l1 = l2.
Proof.
  intros H1; revert l2.
  induction H1 as [|x r1 Hr1 IH Hx]; intros l2 H2 Hf.
  - destruct l2 as [|y r2]; [done |].
    specialize (Hf y.2). rewrite filter_cons in Hf. by case_decide.
  - destruct H2 as [|y r2 Hr2 Hy].
    + specialize (Hf x.2). rewrite filter_cons in Hf. by case_decide.
    + assert (x.2 = y.2) as Hxy.
      { apply Nat.le_antisymm.
        - pose proof (Hf x.2) as Hfx.
          assert (x ∈ filter (λ e, e.2 = x.2) (y :: r2)) as Hin.
          { rewrite <- Hfx. apply list_elem_of_filter. split; [done | left]. }
          apply list_elem_of_filter in Hin as [_ Hin].
          apply elem_of_cons in Hin as [-> | Hin]; [done |].
          rewrite Forall_forall in Hy. by apply Hy.
        - pose proof (Hf y.2) as Hfy.
          assert (y ∈ filter (λ e, e.2 = y.2) (x :: r1)) as Hin.
          { rewrite Hfy. apply list_elem_of_filter. split; [done | left]. }
          apply list_elem_of_filter in Hin as [_ Hin].
          apply elem_of_cons in Hin as [-> | Hin]; [done |].
          rewrite Forall_forall in Hx. by apply Hx. }
      pose proof (Hf x.2) as Hfx. rewrite !filter_cons in Hfx.
      rewrite decide_True in Hfx by done. rewrite decide_True in Hfx by done.
      injection Hfx as -> Hfx. f_equal. apply IH; [done |].
      intros n. specialize (Hf n). rewrite !filter_cons in Hf.
      case_decide; [by injection Hf | done].
Qed.

End sort_facts.

Lemma topKeys_store {A K} `{EqDecision K} (pre post : list (@Store.array A K))
    (values : list A) (reduce : list A → nat) (keyof : A → K) (k : nat) :
  let st := pre ++ Store.Values values :: post in
  let out := Store.topKeys (length pre) reduce keyof k st in
  out.2 !! out.1 = Some (Store.Keys (topK (D3.rollups values reduce keyof) k))
  ∧ take (length st) out.2 = st
  ∧ out.2 !! length st
    = Some (Store.Entries (JSArray.sort byCountDesc (D3.rollups values reduce keyof))).
Proof.
  intros st out. subst out. unfold Store.topKeys.
  fold st. replace (st !! length pre) with (Some (@Store.Values A K values))
    by (subst st; by rewrite list_lookup_middle).
  replace (alter Store.sortInPlace (length st)
             (st ++ [Store.Entries (D3.rollups values reduce keyof)]))
    with (st ++ [Store.Entries (JSArray.sort byCountDesc
                                  (D3.rollups values reduce keyof))]).
  2:{ rewrite <- (Nat.add_0_r (length st)) at 1. by rewrite alter_app_r. }
  rewrite (list_lookup_middle st []) by done. simpl. split_and!.
  - by rewrite list_lookup_middle.
  - rewrite <- !app_assoc. apply take_app_length.
  - rewrite <- !app_assoc. by apply list_lookup_middle.
Qed.

(** C4: [topK] returns the keys of the first [k] entries of the stable
    descending arrangement of the entries: a permutation of them, with counts
    never increasing, in which the entries of each count keep their original
    order; it returns [min k (length entries)] keys, hence all of them when
    there are no more than [k]; and on the entries A:5, B:10, C:1 with k = 2
    it returns B then A.  The selection writes to no array that existed before
    it: in the store, the statement sorts the array that [d3.rollups] has
    just returned, and leaves every earlier array, the records among them,
    as it was. *)
Theorem topK_spec {K} `{EqDecision K} (entries : list (K * nat)) (k : nat) :
  (∃ sorted : list (K * nat),
    sorted ≡ₚ entries
    ∧ StronglySorted countGe sorted
    ∧ (∀ n, filter (λ e, e.2 = n) sorted = filter (λ e, e.2 = n) entries)
    ∧ topK entries k = (take k sorted).*1
    ∧ length (topK entries k) = k `min` length entries
    ∧ (∀ extra, topK entries (length entries + extra) = sorted.*1))
  ∧ topK [("A", 5); ("B", 10); ("C", 1)] 2 = ["B"; "A"]
  ∧ (∀ (A : Type) (pre post : list (@Store.array A K))
       (values : list A) (reduce : list A → nat) (keyof : A → K),
       let st := pre ++ Store.Values values :: post in
       let out := Store.topKeys (length pre) reduce keyof k st in
       out.2 !! out.1 = Some (Store.Keys (topK (D3.rollups values reduce keyof) k))
       ∧ take (length st) out.2 = st
       ∧ out.2 !! length st
         = Some (Store.Entries
                   (JSArray.sort byCountDesc (D3.rollups values reduce keyof)))).
Proof.
  split_and!; [| done | intros; apply topKeys_store].
  exists (JSArray.sort byCountDesc entries).
  split_and!; try done.
  - apply sort_Permutation.
  - apply sort_sorted.
  - intros n. apply sort_stable.
  - unfold topK. by rewrite length_fmap, length_take, sort_Permutation.
  - intros extra. unfold topK. rewrite take_ge; [done |].
    rewrite sort_Permutation. lia.
Qed.

(** ** Grouping: what [d3.rollups] computes *)

Section firsts_facts.
Context {K : Type} `{EqDecision K}.
Implicit Types (l : list K) (x : K).

Lemma firsts_elem_of l x : x ∈ firsts l ↔ x ∈ l.
Proof.
  induction l as [|y r IH]; simpl; [done |].
  rewrite !elem_of_cons, list_elem_of_filter, IH.
  destruct (decide (x = y)); intuition congruence.
Qed.

Lemma firsts_NoDup l : NoDup (firsts l).
Proof.
  induction l as [|y r IH]; simpl; constructor.
  - rewrite list_elem_of_filter. intros [Hy _]. by apply Hy.
  - by apply NoDup_filter.
Qed.

Lemma firsts_snoc l x :
  firsts (l ++ [x]) = if decide (x ∈ l) then firsts l else firsts l ++ [x].
Proof.
  induction l as [|y r IH]; simpl; [done |].
  rewrite IH.
  destruct (decide (x ∈ y :: r)) as [Hin|Hin], (decide (x ∈ r)) as [Hr|Hr];
    simpl; try done.
  - apply elem_of_cons in Hin as [->|?]; [| done].
    rewrite filter_app, filter_cons, decide_False by (intros Hne; by apply Hne).
    by rewrite filter_nil, app_nil_r.
  - exfalso. apply Hin. by right.
  - rewrite filter_app, filter_cons, decide_True; [done |].
    intros ->. apply Hin. left.
Qed.
End firsts_facts.

Section rollups_facts.
Context {A K : Type} `{EqDecision K}.
Implicit Types (values : list A) (keyof : A → K) (ks : list K).

Lemma push_fmap (k : K) (v : A) (g : K → list A) ks :
  NoDup ks →
  D3.push k v ((λ k', (k', g k')) <$> ks)
  = if decide (k ∈ ks)
    then (λ k', (k', if decide (k' = k) then g k' ++ [v] else g k')) <$> ks
    else ((λ k', (k', g k')) <$> ks) ++ [(k, [v])].
Proof.
  induction 1 as [|y r Hy Hr IH]; csimpl; [done |].
  destruct (decide (y = k)) as [->|Hyk].
  - rewrite decide_True by left. f_equal.
    apply list_fmap_ext. intros i k' Hk'.
    rewrite decide_False; [done |].
    intros ->. apply Hy. by eapply list_elem_of_lookup_2.
  - rewrite IH. destruct (decide (k ∈ r)) as [Hin|Hin].
    + rewrite decide_True by (by right). done.
    + rewrite decide_False; [done |].
      rewrite elem_of_cons. intros [E|E]; [by apply Hyk | by apply Hin].
Qed.

Lemma groups_snoc values keyof (v : A) :
  D3.groups (values ++ [v]) keyof = D3.push (keyof v) v (D3.groups values keyof).
Proof. unfold D3.groups. by rewrite foldl_app. Qed.

(** The groups are the keys in order of first occurrence, each with the
    values of that key in their original order. *)
Lemma groups_spec values keyof :
  D3.groups values keyof
  = (λ k, (k, filter (λ v, keyof v = k) values)) <$> firsts (keyof <$> values).
Proof.
  induction values as [|v values IH] using rev_ind; [done |].
  rewrite groups_snoc, IH, push_fmap by apply firsts_NoDup.
  rewrite (fmap_app keyof), list_fmap_singleton, firsts_snoc.
  destruct (decide (keyof v ∈ keyof <$> values)) as [Hin|Hin].
  - rewrite decide_True by (by apply firsts_elem_of).
    apply list_fmap_ext. intros i k' _. f_equal.
    rewrite filter_app, filter_cons, filter_nil.
    destruct (decide (k' = keyof v)) as [->|Hne].
    + by rewrite decide_True.
    + rewrite decide_False by naive_solver. by rewrite app_nil_r.
  - rewrite decide_False by (by rewrite firsts_elem_of).
    rewrite fmap_app. simpl. f_equal.
    + apply list_fmap_ext. intros i k' Hk'. f_equal.
      rewrite filter_app, filter_cons, filter_nil, decide_False, app_nil_r; [done |].
      intros Heq. apply Hin. rewrite Heq.
      apply firsts_elem_of. by eapply list_elem_of_lookup_2.
    + do 2 f_equal.
      rewrite filter_app, filter_cons, filter_nil, decide_True by done.
      replace (filter (λ v0, keyof v0 = keyof v) values) with (@nil A); [done |].
      symmetry. apply filter_none.
      intros w Hw Heq. apply Hin. rewrite <- Heq. by apply list_elem_of_fmap_2.
Qed.

Lemma push_total (k : K) (v : A) (gs : list (K * list A)) :
  sum_list_with (λ kg, length kg.2) (D3.push k v gs)
  = S (sum_list_with (λ kg, length kg.2) gs).
Proof.
  induction gs as [|[k' g] gs IH]; simpl; [done |].
  case_decide; simpl; [rewrite length_app; simpl; lia | rewrite IH; lia].
Qed.

Lemma groups_total values keyof :
  sum_list_with (λ kg, length kg.2) (D3.groups values keyof) = length values.
Proof.
  induction values as [|v values IH] using rev_ind; [done |].
  rewrite groups_snoc, push_total, IH, length_app. simpl. lia.
Qed.

Lemma rollups_spec {V} values (reduce : list A → V) keyof :
  D3.rollups values reduce keyof
  = (λ k, (k, reduce (filter (λ v, keyof v = k) values)))
      <$> firsts (keyof <$> values).
Proof.
  unfold D3.rollups. rewrite groups_spec, <- list_fmap_compose. done.
Qed.

End rollups_facts.

Lemma filter_fmap {A B} (f : A → B) (P : B → Prop) `{∀ y, Decision (P y)}
    (l : list A) :
  filter P (f <$> l) = f <$> filter (λ x, P (f x)) l.
Proof.
  induction l as [|x r IH]; csimpl; [done |].
  rewrite !filter_cons, IH. by case_decide.
Qed.

Section rollups2_facts.
Context {A K1 K2 : Type} `{EqDecision K1, EqDecision K2}.
Context (key1 : A → K1) (key2 : A → K2).
Implicit Types (l : list A) (t : K1 * K2 * nat).

Lemma rollups2_firsts l :
  D3.rollups2 l length key1 key2
  = (λ k1,
      (k1, (λ k2, (k2, length (filter (λ r, key1 r = k1 ∧ key2 r = k2) l)))
             <$> firsts (key2 <$> filter (λ r, key1 r = k1) l)))
    <$> firsts (key1 <$> l).
Proof.
  unfold D3.rollups2. rewrite rollups_spec.
  apply list_fmap_ext. intros _ k1 _. f_equal.
  rewrite rollups_spec.
  apply list_fmap_ext. intros _ k2 _. f_equal.
  rewrite list_filter_filter. f_equal.
  apply list_filter_iff. tauto.
Qed.

Lemma triples_rollups2 l :
  triples (D3.rollups2 l length key1 key2)
  = k1 ← firsts (key1 <$> l);
    k2 ← firsts (key2 <$> filter (λ r, key1 r = k1) l);
    [(k1, k2, length (filter (λ r, key1 r = k1 ∧ key2 r = k2) l))].
Proof.
  unfold triples. rewrite rollups2_firsts, list_fmap_bind.
  apply list_bind_ext; [| done]. intros k1. simpl.
  by rewrite list_fmap_bind.
Qed.

(** A triple is listed exactly when some record has its two keys, and its
    count is the number of such records. *)
Lemma triples_elem l t :
  t ∈ triples (D3.rollups2 l length key1 key2)
  ↔ (∃ r, r ∈ l ∧ key1 r = t.1.1 ∧ key2 r = t.1.2)
    ∧ t.2 = length (filter (λ r, key1 r = t.1.1 ∧ key2 r = t.1.2) l).
Proof.
  rewrite triples_rollups2, list_elem_of_bind. split.
  - intros (k1 & Ht & Hk1). apply list_elem_of_bind in Ht as (k2 & Ht & Hk2).
    apply list_elem_of_singleton in Ht as ->. simpl. split; [| done].
    apply firsts_elem_of, list_elem_of_fmap in Hk2 as (r & -> & Hr).
    apply list_elem_of_filter in Hr as [Hr1 Hr]. by exists r.
  - destruct t as [[c d] n]. simpl. intros [(r & Hr & <- & <-) ->].
    exists (key1 r). split.
    + apply list_elem_of_bind. exists (key2 r). split; [apply list_elem_of_singleton; done |].
      apply firsts_elem_of, list_elem_of_fmap_2, list_elem_of_filter. done.
    + by apply firsts_elem_of, list_elem_of_fmap_2.
Qed.

Lemma triples_NoDup l : NoDup (triples (D3.rollups2 l length key1 key2)).
Proof.
  rewrite triples_rollups2. apply NoDup_bind; [| | apply firsts_NoDup].
  - intros k1 k1' t _ _ Ht Ht'.
    apply list_elem_of_bind in Ht as (k2 & Ht & _).
    apply list_elem_of_bind in Ht' as (k2' & Ht' & _).
    apply list_elem_of_singleton in Ht, Ht'. congruence.
  - intros k1 _. apply NoDup_bind; [| | apply firsts_NoDup].
    + intros k2 k2' t _ _ Ht Ht'.
      apply list_elem_of_singleton in Ht, Ht'. congruence.
    + intros k2 _. apply NoDup_singleton.
Qed.

(** Filtering the triples on their keys, or the records before grouping. *)
Lemma triples_filter (Q : K1 → K2 → Prop) {Qdec : ∀ a b, Decision (Q a b)} l :
  filter (λ t, Q t.1.1 t.1.2) (triples (D3.rollups2 l length key1 key2))
  ≡ₚ triples (D3.rollups2 (filter (λ r, Q (key1 r) (key2 r)) l)
                          length key1 key2).
Proof.
  apply NoDup_Permutation;
    [apply NoDup_filter, triples_NoDup | apply triples_NoDup |].
  intros t. rewrite list_elem_of_filter, !triples_elem.
  assert (Q t.1.1 t.1.2 →
          filter (λ r, key1 r = t.1.1 ∧ key2 r = t.1.2)
                 (filter (λ r, Q (key1 r) (key2 r)) l)
          = filter (λ r, key1 r = t.1.1 ∧ key2 r = t.1.2) l) as Hcount.
  { intros HQ. rewrite list_filter_filter. apply list_filter_iff.
    intros r. split; [tauto |]. intros [E1 E2]. rewrite E1, E2. tauto. }
  split.
  - intros (HQ & (r & Hr & Hr1 & Hr2) & Hn). rewrite Hcount by done.
    split; [| done]. exists r. split; [| done].
    apply list_elem_of_filter. by rewrite Hr1, Hr2.
  - intros ((r & Hr & Hr1 & Hr2) & Hn).
    apply list_elem_of_filter in Hr as [HQ Hr]. rewrite Hr1, Hr2 in HQ.
    rewrite Hcount in Hn by done.
    split; [done |]. split; [| done]. by exists r.
Qed.

(** The counts of all triples add up to the number of records. *)
Lemma triples_total l :
  sum_list_with snd (triples (D3.rollups2 l length key1 key2)) = length l.
Proof.
  rewrite <- (groups_total l key1).
  unfold triples, D3.rollups2, D3.rollups.
  induction (D3.groups l key1) as [|[k1 g] gs IH]; csimpl; [done |].
  rewrite sum_list_with_app, IH. f_equal.
  rewrite <- (groups_total g key2).
  induction (D3.groups g key2) as [|[k2 g2] gs2 IH2]; csimpl; [done |].
  by rewrite IH2.
Qed.

Lemma triples_filter_total (Q : K1 → K2 → Prop) {Qdec : ∀ a b, Decision (Q a b)} l :
  sum_list_with snd
    (filter (λ t, Q t.1.1 t.1.2) (triples (D3.rollups2 l length key1 key2)))
  = length (filter (λ r, Q (key1 r) (key2 r)) l).
Proof. by rewrite triples_filter, triples_total. Qed.

End rollups2_facts.

Lemma rollups2_fmap {A B K1 K2 : Type} `{EqDecision K1, EqDecision K2}
    (f : B → A) (key1 : A → K1) (key2 : A → K2) (l : list B) :
  D3.rollups2 (f <$> l) length key1 key2
  = D3.rollups2 l length (key1 ∘ f) (key2 ∘ f).
Proof.
  rewrite !rollups2_firsts, <- list_fmap_compose.
  apply list_fmap_ext. intros _ k1 _. f_equal.
  rewrite !filter_fmap, <- list_fmap_compose.
  apply list_fmap_ext. intros _ k2 _. f_equal.
  by rewrite filter_fmap, length_fmap.
Qed.

(** C6: two-dimension aggregation lists the first-dimension keys in order of
    first occurrence and, for each, the second-dimension keys of its records
    in order of first occurrence within the group, each with the number of
    records having that pair of keys; the order of first occurrence is the
    insertion order of a map: a further record adds its key at the end when
    the key is new and changes nothing in the order otherwise; three records
    X/A, X/A, X/B give X with A:2 then B:1. *)
Theorem rollups2_spec {A K1 K2} `{EqDecision K1, EqDecision K2}
    (records : list A) (dim1Fn : A → K1) (dim2Fn : A → K2) :
  D3.rollups2 records length dim1Fn dim2Fn
  = (λ k1,
      (k1, (λ k2, (k2, length (filter (λ r, dim1Fn r = k1 ∧ dim2Fn r = k2) records)))
             <$> firsts (dim2Fn <$> filter (λ r, dim1Fn r = k1) records)))
    <$> firsts (dim1Fn <$> records)
  ∧ firsts (@nil K1) = []
  ∧ (∀ (keys : list K1) (k : K1),
       firsts (keys ++ [k]) = if decide (k ∈ keys) then firsts keys else firsts keys ++ [k])
  ∧ D3.rollups2 [("X", "A"); ("X", "A"); ("X", "B")] length fst snd
    = [("X", [("A", 2); ("B", 1)])].
Proof.
  split_and!; [apply rollups2_firsts | done | apply firsts_snoc | done].
Qed.

(** ** The two medal charts *)

Lemma pushCells_triples (rolled : list (string * list (string * nat))) :
  MedalHeatmap.pushCells rolled = cellOf <$> triples rolled.
Proof.
  unfold MedalHeatmap.pushCells, triples.
  induction rolled as [|st rest IH]; csimpl; [done |].
  rewrite fmap_app, IH. f_equal.
  induction (st.2) as [|tc r IHr]; csimpl; [done | by rewrite IHr].
Qed.

Lemma pushLinks_triples (rolled : list (string * list (string * nat))) :
  SankeyDiagram.pushLinks rolled = linkOf <$> triples rolled.
Proof.
  unfold SankeyDiagram.pushLinks, triples.
  induction rolled as [|st rest IH]; csimpl; [done |].
  rewrite fmap_app, IH. f_equal.
  induction (st.2) as [|tc r IHr]; csimpl; [done | by rewrite IHr].
Qed.

(** C10: for the same top sets, the heatmap's order of operations (aggregate
    all joined records into cells, then keep the cells with both keys in the
    top sets) and the Sankey's (keep the records with both keys in the top
    sets, then aggregate) give the same cells with the same counts: each list
    is a rearrangement of the other. *)
Theorem aggregate_filter_commute (joined : list SankeyDiagram.Joined)
    (topCountries topDisciplines : list string) :
  MedalHeatmap.filterTop topCountries topDisciplines
    (MedalHeatmap.cells (forgetMedal <$> joined))
  ≡ₚ linkCell <$> SankeyDiagram.pushLinks
       (SankeyDiagram.countryToDiscipline
          (SankeyDiagram.filterTop topCountries topDisciplines joined)).
Proof.
  unfold MedalHeatmap.filterTop, MedalHeatmap.cells, MedalHeatmap.rolled,
    SankeyDiagram.countryToDiscipline, SankeyDiagram.filterTop.
  rewrite pushCells_triples, pushLinks_triples, <- list_fmap_compose.
  rewrite rollups2_fmap, filter_fmap.
  apply fmap_Permutation.
  exact (triples_filter SankeyDiagram.country SankeyDiagram.discipline
           (λ c d, c ∈ topCountries ∧ d ∈ topDisciplines) joined).
Qed.

(** The two orders of operations can list the same cells in different orders. *)
Example aggregate_filter_order :
  let joined := [SankeyDiagram.mkJoined "X" "Judo" "Gold";
                 SankeyDiagram.mkJoined "Y" "Fencing" "Gold";
                 SankeyDiagram.mkJoined "X" "Fencing" "Gold"] in
  MedalHeatmap.filterTop ["X"; "Y"] ["Fencing"]
    (MedalHeatmap.cells (forgetMedal <$> joined))
  = [MedalHeatmap.mkCell "X" "Fencing" 1; MedalHeatmap.mkCell "Y" "Fencing" 1]
  ∧ linkCell <$> SankeyDiagram.pushLinks
      (SankeyDiagram.countryToDiscipline
         (SankeyDiagram.filterTop ["X"; "Y"] ["Fencing"] joined))
    = [MedalHeatmap.mkCell "Y" "Fencing" 1; MedalHeatmap.mkCell "X" "Fencing" 1].
Proof. split; reflexivity. Qed.

Lemma fmap_fst_pair {K V} (g : K → V) (ks : list K) :
  ((λ k, (k, g k)) <$> ks).*1 = ks.
Proof. induction ks as [|k ks IH]; csimpl; [done | by rewrite IH]. Qed.

Lemma sum_list_with_fmap {A B} (f : B → nat) (g : A → B) (l : list A) :
  sum_list_with f (g <$> l) = sum_list_with (f ∘ g) l.
Proof. induction l as [|x l IH]; csimpl; [done | by rewrite IH]. Qed.

(** The entries the Sankey ranks: each key with its number of records. *)
Lemma rollups_length_totals {A K} `{EqDecision K} (l : list A) (keyof : A → K) :
  totals l keyof (D3.rollups l length keyof).
Proof.
  unfold totals. rewrite rollups_spec, fmap_fst_pair.
  split; [apply firsts_NoDup |].
  intros k n. rewrite list_elem_of_fmap. split.
  - intros (k' & [= -> ->] & Hk). split; [| done].
    apply firsts_elem_of, list_elem_of_fmap in Hk as (r & -> & Hr). by exists r.
  - intros [(r & Hr & <-) ->]. exists (keyof r). split; [done |].
    by apply firsts_elem_of, list_elem_of_fmap_2.
Qed.

(** The entries the heatmap ranks are sums of cell values; they too are the
    numbers of joined records of each key, for either dimension [pr]. *)
Lemma cells_totals (proj : MedalHeatmap.HeatmapCell → string)
    (keyof : MedalHeatmap.Joined → string) (pr : string → string → string)
    (joined : list MedalHeatmap.Joined) :
  (∀ t, proj (cellOf t) = pr t.1.1 t.1.2) →
  (∀ r, keyof r = pr (MedalHeatmap.country r) (MedalHeatmap.discipline r)) →
  totals joined keyof
    (D3.rollups (MedalHeatmap.cells joined)
                (λ v, D3.sum v MedalHeatmap.value) proj).
Proof.
  intros Hproj Hkey. unfold totals. rewrite rollups_spec, fmap_fst_pair.
  split; [apply firsts_NoDup |].
  unfold MedalHeatmap.cells, MedalHeatmap.rolled. rewrite pushCells_triples.
  set (ts := triples _).
  assert (∀ k, D3.sum (filter (λ c, proj c = k) (cellOf <$> ts)) MedalHeatmap.value
               = length (filter (λ r, keyof r = k) joined)) as Hsum.
  { intros k. unfold D3.sum. rewrite filter_fmap, sum_list_with_fmap.
    rewrite (list_filter_iff _ (λ t, pr t.1.1 t.1.2 = k))
      by (intros t; by rewrite Hproj).
    unfold ts. change (MedalHeatmap.value ∘ cellOf) with (@snd (string * string) nat).
    etrans;
      [exact (triples_filter_total MedalHeatmap.country MedalHeatmap.discipline
                (λ a b, pr a b = k) (Qdec := λ a b, decide (pr a b = k)) joined) |].
    f_equal. apply list_filter_iff. intros r. by rewrite Hkey. }
  intros k n. rewrite list_elem_of_fmap. split.
  - intros (k' & [= -> ->] & Hk). split; [| apply Hsum].
    apply firsts_elem_of, list_elem_of_fmap in Hk as (c & -> & Hc).
    apply list_elem_of_fmap in Hc as (t & -> & Ht).
    apply triples_elem in Ht as [(r & Hr & Hr1 & Hr2) _].
    exists r. split; [done |]. by rewrite Hproj, Hkey, Hr1, Hr2.
  - intros [(r & Hr & <-) ->]. exists (keyof r). split; [by rewrite Hsum |].
    apply firsts_elem_of, list_elem_of_fmap.
    set (t := (MedalHeatmap.country r, MedalHeatmap.discipline r,
               length (filter (λ r', MedalHeatmap.country r' = MedalHeatmap.country r
                                     ∧ MedalHeatmap.discipline r' = MedalHeatmap.discipline r)
                              joined))).
    exists (cellOf t). split; [by rewrite Hproj, Hkey |].
    apply list_elem_of_fmap_2, triples_elem. split; [by exists r | done].
Qed.

(** C1: a joined record is in the Sankey's [filtered] list exactly when it is
    a joined record whose country is among the top countries and whose
    discipline is among the top disciplines, and a cell is in the heatmap's
    filtered cell list exactly when it is a cell with both its country and its
    discipline among the top ones; being in one top set only does not keep a
    record.  In both charts the top sets are the top-K selection (K = 8, and
    15 for the heatmap's countries) over entries that list each country, or
    each discipline, once with its total number of joined records. *)
Theorem conjunctive_filter :
  (∀ (joined : list SankeyDiagram.Joined) (d : SankeyDiagram.Joined),
     d ∈ SankeyDiagram.filtered joined
     ↔ d ∈ joined
       ∧ SankeyDiagram.country d ∈ SankeyDiagram.topCountries joined
       ∧ SankeyDiagram.discipline d ∈ SankeyDiagram.topDisciplines joined)
  ∧ (∀ (joined : list MedalHeatmap.Joined) (c : MedalHeatmap.HeatmapCell),
     c ∈ MedalHeatmap.heatmapData joined
     ↔ c ∈ MedalHeatmap.cells joined
       ∧ MedalHeatmap.cell_country c
           ∈ MedalHeatmap.topCountries (MedalHeatmap.cells joined)
       ∧ MedalHeatmap.cell_discipline c
           ∈ MedalHeatmap.topDisciplines (MedalHeatmap.cells joined))
  ∧ (∀ joined : list SankeyDiagram.Joined,
     ∃ byCountry byDiscipline,
       totals joined SankeyDiagram.country byCountry
       ∧ totals joined SankeyDiagram.discipline byDiscipline
       ∧ SankeyDiagram.topCountries joined = topK byCountry 8
       ∧ SankeyDiagram.topDisciplines joined = topK byDiscipline 8)
  ∧ (∀ joined : list MedalHeatmap.Joined,
     ∃ byCountry byDiscipline,
       totals joined MedalHeatmap.country byCountry
       ∧ totals joined MedalHeatmap.discipline byDiscipline
       ∧ MedalHeatmap.topCountries (MedalHeatmap.cells joined) = topK byCountry 15
       ∧ MedalHeatmap.topDisciplines (MedalHeatmap.cells joined)
         = topK byDiscipline 8).
Proof.
  split_and!.
  - intros joined d. unfold SankeyDiagram.filtered, SankeyDiagram.filterTop.
    rewrite list_elem_of_filter. tauto.
  - intros joined c. unfold MedalHeatmap.heatmapData, MedalHeatmap.filterTop.
    rewrite list_elem_of_filter. tauto.
  - intros joined. eexists _, _. split_and!; [| | done | done];
      apply rollups_length_totals.
  - intros joined. eexists _, _. split_and!; [| | done | done].
    + by apply (cells_totals _ _ (λ c _, c)).
    + by apply (cells_totals _ _ (λ _ d, d)).
Qed.

(** ** The join *)

Lemma forEach_ok {S A} (f : S → A → Exc S) (g : S → A → S) (rows : list A) (acc : S) :
  (∀ acc d, f acc d = Ok (g acc d)) → forEach f rows acc = Ok (foldl g acc rows).
Proof.
  intros Hf. revert acc. induction rows as [|d rows IH]; intros acc; simpl; [done |].
  rewrite Hf. simpl. apply IH.
Qed.

Lemma mapNotNull_ok {A B} (f : A → Exc (option B)) (g : A → option B) (rows : list A) :
  (∀ d, f d = Ok (g d)) → mapNotNull f rows = Ok (omap g rows).
Proof.
  intros Hf. unfold mapNotNull.
  assert (mapM f rows = Ok (g <$> rows)) as ->.
  { induction rows as [|d rows IH]; simpl; [done |]. by rewrite Hf, IH. }
  simpl. f_equal. induction rows as [|d rows IH]; csimpl; [done |].
  rewrite IH. by destruct (g d).
Qed.

Lemma falsy_present (v : option string) : falsy v = bool_decide (present v = None).
Proof.
  destruct v as [s|]; simpl; [| done].
  by destruct (bool_decide (s = "")).
Qed.

Lemma str_present (v : option string) (s : string) : present v = Some s → str v = Ok s.
Proof.
  destruct v as [s'|]; simpl; [| done]. case_bool_decide; congruence.
Qed.

Lemma indexRow_ok (m : gmap string string) (d : Row.t) :
  indexRow m d = Ok (indexStep m d).
Proof.
  unfold indexRow, indexStep. rewrite !falsy_present.
  destruct (present (Row.name d)) as [n|] eqn:Hn; [| done].
  destruct (present (Row.country d)) as [c|] eqn:Hc; [| done].
  simpl. by rewrite (str_present _ _ Hn), (str_present _ _ Hc).
Qed.

Lemma buildIndex_ok (medallists : list Row.t) :
  buildIndex medallists = Ok (foldl indexStep ∅ medallists).
Proof. apply forEach_ok, indexRow_ok. Qed.

(** Last write wins: the index holds, under each key, the country of the last
    row contributing to that key. *)
Lemma index_lookup (medallists : list Row.t) (key : string) :
  foldl indexStep ∅ medallists !! key = last (omap (indexEntry key) medallists).
Proof.
  induction medallists as [|d rows IH] using rev_ind; [done |].
  rewrite foldl_app, omap_app, last_app. simpl.
  unfold indexStep at 1, indexEntry at 1.
  destruct (present (Row.name d)) as [n|]; simpl; [| done].
  destruct (present (Row.country d)) as [c|]; simpl; [| done].
  case_bool_decide as Hkey; simpl.
  - by rewrite Hkey, lookup_insert_eq.
  - by rewrite lookup_insert_ne.
Qed.

Lemma present_nonempty (v : option string) (s : string) : present v = Some s → s ≠ "".
Proof.
  destruct v as [s'|]; simpl; [| done]. case_bool_decide; congruence.
Qed.

Lemma index_nonempty (medallists : list Row.t) (key c : string) :
  foldl indexStep ∅ medallists !! key = Some c → c ≠ "".
Proof.
  rewrite index_lookup. intros Hlast.
  apply last_Some_elem_of, list_elem_of_omap in Hlast as (d & _ & Hd).
  unfold indexEntry in Hd.
  destruct (present (Row.name d)); simpl in Hd; [| done].
  destruct (present (Row.country d)) as [c'|] eqn:Hc; simpl in Hd; [| done].
  case_bool_decide; [| done]. injection Hd as <-. by eapply present_nonempty.
Qed.

Lemma sankey_joinRow_ok (idx : gmap string string) (d : Row.t) :
  (∀ key c, idx !! key = Some c → c ≠ "") →
  SankeyDiagram.joinRow idx d = Ok (sankeyRecord idx d).
Proof.
  intros Hidx. unfold SankeyDiagram.joinRow, sankeyRecord. rewrite !falsy_present.
  destruct (present (Row.name d)) as [n|] eqn:Hn; [| done].
  destruct (present (Row.discipline d)) as [disc|] eqn:Hd; [| done].
  destruct (present (Row.medal_type d)) as [med|] eqn:Hm; [| done].
  simpl. rewrite (str_present _ _ Hn). simpl.
  destruct (idx !! normalizeName n false) as [c|] eqn:Hc; [| done].
  rewrite bool_decide_eq_false_2 by eauto.
  by rewrite (str_present _ _ Hd), (str_present _ _ Hm).
Qed.

Lemma heatmap_joinRow_ok (idx : gmap string string) (d : Row.t) :
  (∀ key c, idx !! key = Some c → c ≠ "") →
  MedalHeatmap.joinRow idx d = Ok (heatmapRecord idx d).
Proof.
  intros Hidx. unfold MedalHeatmap.joinRow, heatmapRecord. rewrite !falsy_present.
  destruct (present (Row.name d)) as [n|] eqn:Hn; [| done].
  destruct (present (Row.discipline d)) as [disc|] eqn:Hd; [| done].
  simpl. rewrite (str_present _ _ Hn). simpl.
  destruct (idx !! normalizeName n false) as [c|] eqn:Hc; [| done].
  rewrite bool_decide_eq_false_2 by eauto.
  by rewrite (str_present _ _ Hd).
Qed.

(** Case analysis on the fields a row step reads. *)
Ltac case_present :=
  repeat match goal with
         | |- context [present ?v] =>
             let Hp := fresh "Hp" in
             destruct (present v) eqn:Hp; simpl; try done
         end.

(** The row steps of both joins return for every index, whatever it holds. *)
Lemma sankey_joinRow_total (idx : gmap string string) (d : Row.t) :
  ∃ r, SankeyDiagram.joinRow idx d = Ok r.
Proof.
  unfold SankeyDiagram.joinRow. rewrite !falsy_present.
  case_present; eauto.
  erewrite !str_present by done. simpl.
  destruct (idx !! _); [| by eauto]. case_bool_decide; eauto.
Qed.

Lemma heatmap_joinRow_total (idx : gmap string string) (d : Row.t) :
  ∃ r, MedalHeatmap.joinRow idx d = Ok r.
Proof.
  unfold MedalHeatmap.joinRow. rewrite !falsy_present.
  case_present; eauto.
  erewrite !str_present by done. simpl.
  destruct (idx !! _); [| by eauto]. case_bool_decide; eauto.
Qed.

Lemma mapNotNull_total {A B} (f : A → Exc (option B)) (rows : list A) :
  (∀ d, ∃ r, f d = Ok r) → ∃ out, mapNotNull f rows = Ok out.
Proof.
  intros Hf.
  exists (omap (λ d, match f d with Ok r => r | TypeError => None end) rows).
  apply mapNotNull_ok. intros d. by destruct (Hf d) as [r ->].
Qed.

(** C2, as the code has it: the index maps each normalised (reversed) name to
    the country of the last medallist row having that key, rows without a
    name or a country being skipped; a medal row yields one joined record,
    the indexed country with the row's own fields, when it has every field
    its chart requires (name and discipline, and the medal type in the
    Sankey) and its normalised name is in the index, and no record otherwise;
    the records keep the order of the rows.  On the example of the
    specification the heatmap's join gives the one record X/Fencing, and the
    Sankey's gives one record once the row carries a medal type. *)
Theorem join_spec (medallists medals : list Row.t) :
  (∃ nameToCountry : gmap string string,
     buildIndex medallists = Ok nameToCountry
     ∧ (∀ key, nameToCountry !! key = last (omap (indexEntry key) medallists))
     ∧ SankeyDiagram.join nameToCountry medals
       = Ok (omap (sankeyRecord nameToCountry) medals)
     ∧ MedalHeatmap.join nameToCountry medals
       = Ok (omap (heatmapRecord nameToCountry) medals))
  ∧ (nameToCountry ← buildIndex [medallist "Jane Doe" "X"];
     MedalHeatmap.join nameToCountry
       [medalRow "Doe Jane" "Fencing" None; medalRow "No Match" "Judo" None])
    = Ok [MedalHeatmap.mkJoined "X" "Fencing"]
  ∧ (nameToCountry ← buildIndex [medallist "Jane Doe" "X"];
     SankeyDiagram.join nameToCountry
       [medalRow "Doe Jane" "Fencing" (Some "Gold");
        medalRow "No Match" "Judo" (Some "Gold")])
    = Ok [SankeyDiagram.mkJoined "X" "Fencing" "Gold"].
Proof.
  split; [| by vm_compute].
  exists (foldl indexStep ∅ medallists). split_and!.
  - apply buildIndex_ok.
  - intros key. apply index_lookup.
  - apply mapNotNull_ok. intros d. apply sankey_joinRow_ok.
    intros key c. apply index_nonempty.
  - apply mapNotNull_ok. intros d. apply heatmap_joinRow_ok.
    intros key c. apply index_nonempty.
Qed.

(** C2 as stated fails: on the specification's own example the Sankey's
    join yields no record, the rows having no medal type; and in the heatmap a
    medal row whose normalised name is in the index yields no record when it
    has no discipline. *)
Lemma join_counterexample :
  (nameToCountry ← buildIndex [medallist "Jane Doe" "X"];
   SankeyDiagram.join nameToCountry
     [medalRow "Doe Jane" "Fencing" None; medalRow "No Match" "Judo" None])
  = Ok []
  ∧ (nameToCountry ← buildIndex [medallist "Jane Doe" "X"];
     Ok (nameToCountry !! normalizeName "Doe Jane" false))
    = Ok (Some "X")
  ∧ (nameToCountry ← buildIndex [medallist "Jane Doe" "X"];
     MedalHeatmap.join nameToCountry [Row.mk (Some "Doe Jane") None None None None])
    = Ok [].
Proof. by vm_compute. Qed.

(** C7: no stage raises, whatever the rows (fields may be absent or empty):
    the index is built, both joins return for every index, and both loaders
    return a value; the stages after the join are functions on lists.  On
    empty input every stage returns an empty list or map. *)
Theorem chain_total :
  (∀ medallists, ∃ nameToCountry, buildIndex medallists = Ok nameToCountry)
  ∧ (∀ nameToCountry medals,
       ∃ joined, SankeyDiagram.join nameToCountry medals = Ok joined)
  ∧ (∀ nameToCountry medals,
       ∃ joined, MedalHeatmap.join nameToCountry medals = Ok joined)
  ∧ (∀ medallists medals, ∃ out, SankeyDiagram.loadData medallists medals = Ok out)
  ∧ (∀ medallists medals,
       ∃ out, MedalHeatmap.loadHeatmapData medallists medals = Ok out)
  ∧ (∀ reversed, normalizeName "" reversed = "")
  ∧ buildIndex [] = Ok ∅
  ∧ (∀ nameToCountry, SankeyDiagram.join nameToCountry [] = Ok [])
  ∧ (∀ nameToCountry, MedalHeatmap.join nameToCountry [] = Ok [])
  ∧ (∀ medals, SankeyDiagram.join ∅ medals = Ok [])
  ∧ (∀ medals, MedalHeatmap.join ∅ medals = Ok [])
  ∧ D3.rollups (@nil SankeyDiagram.Joined) length SankeyDiagram.country = []
  ∧ D3.rollups2 (@nil SankeyDiagram.Joined) length
      SankeyDiagram.country SankeyDiagram.discipline = []
  ∧ (∀ k, topK (@nil (string * nat)) k = [])
  ∧ SankeyDiagram.topCountries [] = []
  ∧ SankeyDiagram.topDisciplines [] = []
  ∧ SankeyDiagram.filtered [] = []
  ∧ SankeyDiagram.linkMap [] = []
  ∧ MedalHeatmap.cells [] = []
  ∧ MedalHeatmap.heatmapData [] = []
  ∧ (∀ medallists, SankeyDiagram.loadData medallists [] = Ok ([], []))
  ∧ (∀ medals, SankeyDiagram.loadData [] medals = Ok ([], []))
  ∧ (∀ medallists, MedalHeatmap.loadHeatmapData medallists [] = Ok [])
  ∧ (∀ medals, MedalHeatmap.loadHeatmapData [] medals = Ok [])
  ∧ AthletesMap.loadAthletes [] = ∅.
Proof.
  assert (∀ medals, omap (sankeyRecord ∅) medals = []) as HS.
  { induction medals as [|d r IH]; csimpl; [done |]. rewrite IH.
    unfold sankeyRecord. by case_present. }
  assert (∀ medals, omap (heatmapRecord ∅) medals = []) as HH.
  { induction medals as [|d r IH]; csimpl; [done |]. rewrite IH.
    unfold heatmapRecord. by case_present. }
  assert (∀ medals, SankeyDiagram.join ∅ medals = Ok []) as HSj.
  { intros medals. rewrite <- (HS medals).
    apply mapNotNull_ok. intros d. by apply sankey_joinRow_ok. }
  assert (∀ medals, MedalHeatmap.join ∅ medals = Ok []) as HHj.
  { intros medals. rewrite <- (HH medals).
    apply mapNotNull_ok. intros d. by apply heatmap_joinRow_ok. }
  split_and!; try done.
  - intros medallists. rewrite buildIndex_ok. eauto.
  - intros idx medals. apply mapNotNull_total, sankey_joinRow_total.
  - intros idx medals. apply mapNotNull_total, heatmap_joinRow_total.
  - intros medallists medals. unfold SankeyDiagram.loadData.
    rewrite buildIndex_ok. simpl.
    destruct (mapNotNull_total (SankeyDiagram.joinRow (foldl indexStep ∅ medallists))
                medals (sankey_joinRow_total _)) as [joined Hj].
    unfold SankeyDiagram.join. rewrite Hj. simpl. eauto.
  - intros medallists medals. unfold MedalHeatmap.loadHeatmapData.
    rewrite buildIndex_ok. simpl.
    destruct (mapNotNull_total (MedalHeatmap.joinRow (foldl indexStep ∅ medallists))
                medals (heatmap_joinRow_total _)) as [joined Hj].
    unfold MedalHeatmap.join. rewrite Hj. simpl. eauto.
  - intros k. by destruct k.
  - intros medallists. unfold SankeyDiagram.loadData. by rewrite buildIndex_ok.
  - intros medals. unfold SankeyDiagram.loadData. simpl. by rewrite HSj.
  - intros medallists. unfold MedalHeatmap.loadHeatmapData. by rewrite buildIndex_ok.
  - intros medals. unfold MedalHeatmap.loadHeatmapData. simpl. by rewrite HHj.
Qed.

(** ** The country aliaser and the choropleth counts *)

Import AthletesMap.

(** The alias table is looked up by exact match of the key. *)
Lemma ownProperty_elem (raw canonical : string) :
  ownProperty raw = Some canonical ↔ (raw, canonical) ∈ COUNTRY_ALIASES.
Proof.
  unfold ownProperty. symmetry. apply elem_of_list_to_map.
  apply (bool_decide_unpack _). by vm_compute.
Qed.

Lemma ownProperty_nonempty (raw canonical : string) :
  ownProperty raw = Some canonical → canonical ≠ "".
Proof.
  rewrite ownProperty_elem.
  assert (Forall (λ kv : string * string, kv.2 ≠ "") COUNTRY_ALIASES) as H.
  { apply (bool_decide_unpack _). by vm_compute. }
  intros Hin. by apply (proj1 (Forall_forall _ _) H (raw, canonical)).
Qed.

Lemma normalizeCountry_chosen (country countryLong : option string) :
  normalizeCountry country countryLong
  = (λ raw, default (Str raw) (getProperty raw)) <$> chosen country countryLong.
Proof.
  unfold normalizeCountry, chosen.
  destruct countryLong as [l|], country as [c|]; simpl;
    repeat (case_bool_decide; simpl); congruence.
Qed.

(** C5, as the code has it: [normalizeCountry] works from the long label when
    it is given and not empty, else from the primary label when that is given
    and not empty, and returns null when there is neither; it returns the
    canonical name when that label is, character for character, a key of the
    alias table, and otherwise the label unchanged, for every label that is
    not the name of a property inherited from [Object.prototype].  With no
    argument it returns null; USA gives United States of America; Wakanda,
    usa and USA after a space come back as they are. *)
Theorem normalizeCountry_spec (country countryLong : option string) :
  match chosen country countryLong with
  | None => normalizeCountry country countryLong = None
  | Some raw =>
      match ownProperty raw with
      | Some canonical => normalizeCountry country countryLong = Some (Str canonical)
      | None =>
          raw ∉ Object_prototype →
          normalizeCountry country countryLong = Some (Str raw)
      end
  end
  ∧ normalizeCountry None None = None
  ∧ normalizeCountry (Some "USA") None = Some (Str "United States of America")
  ∧ normalizeCountry (Some "Wakanda") None = Some (Str "Wakanda")
  ∧ normalizeCountry (Some "usa") None = Some (Str "usa")
  ∧ normalizeCountry (Some " USA") None = Some (Str " USA")
  ∧ normalizeCountry (Some "USA") (Some "Wakanda") = Some (Str "Wakanda").
Proof.
  split; [| by vm_compute].
  rewrite normalizeCountry_chosen.
  destruct (chosen country countryLong) as [raw|]; simpl; [| done].
  unfold getProperty. destruct (ownProperty raw) as [canonical|]; simpl; [done |].
  intros Hraw. by rewrite decide_False.
Qed.

Lemma normalizeCountry_spec_witness :
  ("Wakanda" ∉ Object_prototype)
  ∧ normalizeCountry (Some "USA") (Some "Wakanda") = Some (Str "Wakanda").
Proof.
  assert ("Wakanda" ∉ Object_prototype) as H
    by (apply (bool_decide_unpack _); vm_compute; exact I).
  split; [exact H |].
  exact (proj1 (normalizeCountry_spec (Some "USA") (Some "Wakanda")) H).
Defined.

(** C5 as stated fails: with an empty long label and the primary label
    USA the code answers from the primary label, where preferring the given
    long label would return the empty label unchanged; and for the label
    toString, which is no key of the alias table, the code does not return
    the label but the built-in function of that name. *)
Lemma normalizeCountry_counterexample :
  normalizeCountry (Some "USA") (Some "") = Some (Str "United States of America")
  ∧ canonicalize (Some "USA") (Some "") = Some (Str "")
  ∧ normalizeCountry (Some "USA") (Some "") ≠ canonicalize (Some "USA") (Some "")
  ∧ ownProperty "toString" = None
  ∧ normalizeCountry (Some "toString") None = Some (Builtin "toString")
  ∧ normalizeCountry (Some "toString") None ≠ canonicalize (Some "toString") None.
Proof. by vm_compute. Qed.

(** C9: with an empty long label and a non-empty primary label, the result is
    computed from the primary label, as if no long label were given: it is
    the alias lookup of the primary label with the label itself as fallback
    (the canonical name for a key of the table, and the label unchanged for
    any other label that is not an inherited property name); with both labels
    empty the result is null, not the empty string. *)
Theorem normalizeCountry_empty_long (primary : string) :
  primary ≠ "" →
  normalizeCountry (Some primary) (Some "") = normalizeCountry (Some primary) None
  ∧ normalizeCountry (Some primary) (Some "")
    = Some (default (Str primary) (getProperty primary))
  ∧ (primary ∉ Object_prototype →
     normalizeCountry (Some primary) (Some "")
     = Some (Str (default primary (ownProperty primary))))
  ∧ normalizeCountry (Some "") (Some "") = None
  ∧ normalizeCountry (Some "") (Some "") ≠ Some (Str "").
Proof.
  intros Hp. unfold normalizeCountry. simpl.
  rewrite bool_decide_eq_false_2 by done.
  split_and!; try done.
  intros Hproto. unfold getProperty.
  destruct (ownProperty primary); simpl; [done |]. by rewrite decide_False.
Qed.

Lemma normalizeCountry_empty_long_witness :
  "Great Britain" ≠ ""
  ∧ normalizeCountry (Some "Great Britain") (Some "") = Some (Str "United Kingdom").
Proof.
  assert ("Great Britain" ≠ "") as H by discriminate.
  split; [exact H |].
  exact (proj1 (proj2 (normalizeCountry_empty_long "Great Britain" H))).
Defined.

Lemma normalizeCountry_truthy (country countryLong : option string) (v : Value) :
  normalizeCountry country countryLong = Some v → falsyValue (Some v) = false.
Proof.
  rewrite normalizeCountry_chosen.
  destruct (chosen country countryLong) as [raw|] eqn:Hraw; simpl; [| done].
  intros [= <-]. unfold getProperty.
  destruct (ownProperty raw) as [canonical|] eqn:Hown; simpl.
  - apply bool_decide_eq_false_2. by eapply ownProperty_nonempty.
  - case_decide; simpl; [done |].
    apply bool_decide_eq_false_2. unfold chosen in Hraw.
    destruct (present countryLong) eqn:Hl.
    + injection Hraw as ->. by eapply present_nonempty.
    + by eapply present_nonempty.
Qed.

Lemma countRow_lookup (counts : gmap Value nat) (d : Row.t) (c : Value) :
  countRow counts d !! c
  = if decide (countryOf d = Some c) then Some (default 0 (counts !! c) + 1)
    else counts !! c.
Proof.
  unfold countRow, countryOf.
  destruct (normalizeCountry (Row.country d) (Row.country_long d)) as [key|] eqn:Hkey.
  - rewrite (normalizeCountry_truthy _ _ _ Hkey).
    case_decide as Hc.
    + injection Hc as ->. by rewrite lookup_insert_eq.
    + rewrite lookup_insert_ne; [done | congruence].
  - by rewrite decide_False.
Qed.

Lemma loadAthletes_lookup (data : list Row.t) (c : Value) :
  loadAthletes data !! c
  = match length (filter (λ d, countryOf d = Some c) data) with
    | 0 => None
    | n => Some n
    end.
Proof.
  unfold loadAthletes.
  induction data as [|d data IH] using rev_ind; [done |].
  rewrite foldl_app, filter_app, length_app. simpl.
  rewrite countRow_lookup, IH, filter_cons, filter_nil.
  case_decide; simpl.
  - destruct (length _); simpl; f_equal; lia.
  - by rewrite Nat.add_0_r.
Qed.

(** C8: the choropleth's map holds [n] under the key [c] exactly when [n] is
    at least one and is the number of rows whose canonical country is [c];
    rows with no canonical country add nothing, and every country of at least
    one row is a key: nothing is narrowed to a top-K. *)
Theorem loadAthletes_spec (data : list Row.t) (c : Value) (n : nat) :
  (loadAthletes data !! c = Some n
   ↔ 1 ≤ n ∧ n = length (filter (λ d, countryOf d = Some c) data))
  ∧ (is_Some (loadAthletes data !! c) ↔ ∃ d, d ∈ data ∧ countryOf d = Some c)
  ∧ loadAthletes (filter (λ d, countryOf d ≠ None) data) = loadAthletes data.
Proof.
  split_and!.
  - rewrite loadAthletes_lookup.
    destruct (length _) as [|m]; split; try (intros [? ?]); try intros [= <-];
      try done; try lia. by subst n.
  - rewrite loadAthletes_lookup.
    destruct (filter _ data) as [|d r] eqn:Hf; simpl.
    + split; [by intros [? ?] |]. intros (d & Hd & Hc).
      assert (d ∈ filter (λ d, countryOf d = Some c) data) as Hin
        by (by apply list_elem_of_filter).
      rewrite Hf in Hin. by apply not_elem_of_nil in Hin.
    + split; [| by eauto]. intros _. exists d.
      assert (d ∈ filter (λ d, countryOf d = Some c) data) as Hin
        by (rewrite Hf; left).
      apply list_elem_of_filter in Hin. tauto.
  - apply map_eq. intros key. rewrite !loadAthletes_lookup.
    rewrite list_filter_filter.
    rewrite (list_filter_iff _ (λ d, countryOf d = Some key)); [done |].
    intros d. split; [tauto |]. intros ->. done.
Qed.

Example loadAthletes_example :
  let counts := loadAthletes [athlete "USA" None; athlete "United States" (Some "");
                              athlete "" (Some ""); athlete "Wakanda" None;
                              Row.mk None None None None None] in
  counts !! Str "United States of America" = Some 2
  ∧ counts !! Str "Wakanda" = Some 1
  ∧ counts !! Str "USA" = None
  ∧ size counts = 2.
Proof. by vm_compute. Qed.

(** * Further properties of the code *)

(** ** Sorting and top-K *)

Lemma NoDup_fst_agree {K V} (l : list (K * V)) (k : K) (v1 v2 : V) :
  NoDup l.*1 → (k, v1) ∈ l → (k, v2) ∈ l → v1 = v2.
Proof.
  induction l as [|[k' v'] l IH]; csimpl; intros Hnd H1 H2.
  - by apply not_elem_of_nil in H1.
  - apply NoDup_cons in Hnd as [Hk' Hnd].
    apply elem_of_cons in H1 as [E1|H1], H2 as [E2|H2].
    + by simplify_eq.
    + simplify_eq. exfalso. apply Hk', list_elem_of_fmap.
      eexists. split; [| eassumption]. done.
    + simplify_eq. exfalso. apply Hk', list_elem_of_fmap.
      eexists. split; [| eassumption]. done.
    + by apply IH.
Qed.

Lemma topK_take {K} (entries : list (K * nat)) (j k : nat) :
  topK entries (j `min` k) = take j (topK entries k).
Proof. unfold topK. by rewrite <- fmap_take, take_take. Qed.

Lemma topK_length {K} (entries : list (K * nat)) (k : nat) :
  length (topK entries k) ≤ k.
Proof. unfold topK. rewrite length_fmap, length_take. lia. Qed.

Lemma topK_subseteq {K} (entries : list (K * nat)) (k : nat) :
  topK entries k ⊆ entries.*1.
Proof.
  unfold topK. intros a (e & -> & He)%list_elem_of_fmap.
  apply list_elem_of_fmap_2. rewrite <- (sort_Permutation entries).
  by eapply subseteq_take.
Qed.

Lemma topK_NoDup {K} (entries : list (K * nat)) (k : nat) :
  NoDup entries.*1 → NoDup (topK entries k).
Proof.
  intros Hnd. unfold topK. rewrite fmap_take.
  apply (sublist_NoDup _ (JSArray.sort byCountDesc entries).*1);
    [| apply sublist_take].
  by rewrite sort_Permutation.
Qed.

Lemma topK_dominance {K} (entries : list (K * nat)) (k : nat) (a b : K) (n m : nat) :
  NoDup entries.*1 → (a, n) ∈ entries → (b, m) ∈ entries →
  a ∈ topK entries k → b ∉ topK entries k → m ≤ n.
Proof.
  intros Hnd Ha Hb Hin Hout. unfold topK in *.
  pose proof (sort_sorted entries) as Hs.
  rewrite <- (take_drop k (JSArray.sort byCountDesc entries)) in Hs.
  apply list_elem_of_fmap in Hin as ([a' n'] & [= <-] & Hin).
  assert (n' = n) as ->.
  { eapply (NoDup_fst_agree entries a); [done | | done].
    rewrite <- (sort_Permutation entries). by eapply subseteq_take. }
  assert ((b, m) ∈ drop k (JSArray.sort byCountDesc entries)) as Hdrop.
  { rewrite <- (sort_Permutation entries) in Hb.
    rewrite <- (take_drop k (JSArray.sort byCountDesc entries)) in Hb.
    apply elem_of_app in Hb as [Hb|Hb]; [| done].
    exfalso. apply Hout. by apply (list_elem_of_fmap_2 fst _ (b, m)). }
  exact (StronglySorted_app_1_elem_of _ _ _ _ _ Hs Hin Hdrop).
Qed.

(** X1: whatever algorithm the engine's [sort] uses, an arrangement of the
    entries that is descending by count and keeps the order of the entries of
    each count is the array the model computes, and sorting it again leaves it
    as it is. *)
Theorem sort_engine_independent {K} (entries arranged : list (K * nat)) :
  StronglySorted countGe arranged →
  (∀ n, filter (λ e, e.2 = n) arranged = filter (λ e, e.2 = n) entries) →
  arranged = JSArray.sort byCountDesc entries
  ∧ JSArray.sort byCountDesc arranged = arranged.
Proof.
  intros Hs Hst. split.
  - apply stable_sorted_unique; [done | apply sort_sorted |].
    intros n. by rewrite sort_stable.
  - apply stable_sorted_unique; [apply sort_sorted | done |].
    intros n. apply sort_stable.
Qed.

Lemma sort_engine_independent_witness :
  StronglySorted countGe [("B", 10); ("A", 5); ("C", 5)]
  ∧ (∀ n, filter (λ e, e.2 = n) [("B", 10); ("A", 5); ("C", 5)]
          = filter (λ e, e.2 = n) [("A", 5); ("B", 10); ("C", 5)])
  ∧ [("B", 10); ("A", 5); ("C", 5)]
    = JSArray.sort byCountDesc [("A", 5); ("B", 10); ("C", 5)]
  ∧ JSArray.sort byCountDesc [("B", 10); ("A", 5); ("C", 5)]
    = [("B", 10); ("A", 5); ("C", 5)].
Proof.
  assert (StronglySorted countGe [("B", 10); ("A", 5); ("C", 5)]) as Hs
    by (repeat constructor; unfold countGe; simpl; lia).
  assert (∀ n, filter (λ e : string * nat, e.2 = n) [("B", 10); ("A", 5); ("C", 5)]
               = filter (λ e, e.2 = n) [("A", 5); ("B", 10); ("C", 5)]) as Hst.
  { intros n. rewrite !filter_cons, !filter_nil. simpl.
    repeat case_decide; simplify_eq; done. }
  split; [exact Hs |]. split; [exact Hst |].
  exact (sort_engine_independent [("A", 5); ("B", 10); ("C", 5)] _ Hs Hst).
Defined.

Lemma rollups_keys {A K V} `{EqDecision K} (l : list A) (reduce : list A → V)
    (keyof : A → K) :
  (D3.rollups l reduce keyof).*1 = firsts (keyof <$> l).
Proof. by rewrite rollups_spec, fmap_fst_pair. Qed.

Lemma topK_all {K} (entries : list (K * nat)) (k : nat) :
  length entries ≤ k → topK entries k ≡ₚ entries.*1.
Proof.
  intros Hk. unfold topK. rewrite take_ge by (by rewrite sort_Permutation).
  by rewrite sort_Permutation.
Qed.

Lemma filter_all {A} (P : A → Prop) `{∀ x, Decision (P x)} (l : list A) :
  (∀ x, x ∈ l → P x) → filter P l = l.
Proof.
  induction l as [|x l IH]; intros Hl; [done |].
  rewrite filter_cons_True by (apply Hl; left).
  f_equal. apply IH. intros y Hy. apply Hl. by right.
Qed.

Lemma totals_count {A K} `{EqDecision K} (l : list A) (keyof : A → K)
    (entries : list (K * nat)) (a : K) :
  totals l keyof entries → a ∈ entries.*1 →
  (a, length (filter (λ r, keyof r = a) l)) ∈ entries.
Proof.
  intros [_ Ht] ([a' n] & -> & Hin)%list_elem_of_fmap. simpl.
  pose proof (proj1 (Ht a' n) Hin) as [_ ->]. done.
Qed.

Lemma totals_dominance {A K} `{EqDecision K} (l : list A) (keyof : A → K)
    (entries : list (K * nat)) (k : nat) (a b : K) :
  totals l keyof entries → a ∈ topK entries k → b ∉ topK entries k →
  length (filter (λ r, keyof r = b) l) ≤ length (filter (λ r, keyof r = a) l).
Proof.
  intros Ht Ha Hb.
  destruct (decide (b ∈ entries.*1)) as [Hin|Hout].
  - eapply (topK_dominance entries k a b); [apply Ht | | | done | done].
    + apply totals_count; [done |]. by eapply topK_subseteq.
    + by apply totals_count.
  - rewrite (filter_none _ l); [simpl; lia |].
    intros r Hr Hkey. apply Hout.
    destruct Ht as [_ Ht].
    apply (list_elem_of_fmap_2 fst _ (b, length (filter (λ r, keyof r = b) l))).
    apply Ht. split; [by exists r | done].
Qed.

Lemma firsts_length_le {K} `{EqDecision K} (l top : list K) :
  l ⊆ top → length (firsts l) ≤ length top.
Proof.
  intros Hsub. apply submseteq_length, NoDup_submseteq; [apply firsts_NoDup |].
  intros x Hx. by apply Hsub, firsts_elem_of.
Qed.

(** X2: the Sankey's top sets hold at most 8 names each, without duplicates,
    all of them countries (disciplines) of joined records; so the filtered
    records have at most 8 distinct countries and at most 8 distinct
    disciplines. *)
Theorem sankey_top_sets (joined : list SankeyDiagram.Joined) :
  NoDup (SankeyDiagram.topCountries joined)
  ∧ NoDup (SankeyDiagram.topDisciplines joined)
  ∧ length (SankeyDiagram.topCountries joined) ≤ 8
  ∧ length (SankeyDiagram.topDisciplines joined) ≤ 8
  ∧ SankeyDiagram.topCountries joined ⊆ SankeyDiagram.country <$> joined
  ∧ SankeyDiagram.topDisciplines joined ⊆ SankeyDiagram.discipline <$> joined
  ∧ length (firsts (SankeyDiagram.country <$> SankeyDiagram.filtered joined)) ≤ 8
  ∧ length (firsts (SankeyDiagram.discipline <$> SankeyDiagram.filtered joined)) ≤ 8.
Proof.
  assert (∀ (keyof : SankeyDiagram.Joined → string),
            topK (D3.rollups joined length keyof) 8 ⊆ keyof <$> joined) as Hsub.
  { intros keyof a Ha. apply topK_subseteq in Ha.
    rewrite rollups_keys in Ha. by apply firsts_elem_of. }
  unfold SankeyDiagram.topCountries, SankeyDiagram.topDisciplines.
  split_and!; try apply topK_length; try apply Hsub.
  - apply topK_NoDup. rewrite rollups_keys. apply firsts_NoDup.
  - apply topK_NoDup. rewrite rollups_keys. apply firsts_NoDup.
  - etrans; [| apply (topK_length (D3.rollups joined length SankeyDiagram.country) 8)].
    apply firsts_length_le.
    intros c (d & -> & Hd)%list_elem_of_fmap.
    apply list_elem_of_filter in Hd. tauto.
  - etrans; [| apply (topK_length (D3.rollups joined length SankeyDiagram.discipline) 8)].
    apply firsts_length_le.
    intros c (d & -> & Hd)%list_elem_of_fmap.
    apply list_elem_of_filter in Hd. tauto.
Qed.

(** X3: in both charts a name inside a top set has at least as many joined
    records as any name outside it, for countries and for disciplines; the
    heatmap's ranking by sums of cell values is a ranking by numbers of joined
    records. *)
Theorem top_sets_dominate :
  (∀ (joined : list SankeyDiagram.Joined) (a b : string),
     a ∈ SankeyDiagram.topCountries joined →
     b ∉ SankeyDiagram.topCountries joined →
     length (filter (λ r, SankeyDiagram.country r = b) joined)
     ≤ length (filter (λ r, SankeyDiagram.country r = a) joined))
  ∧ (∀ (joined : list SankeyDiagram.Joined) (a b : string),
     a ∈ SankeyDiagram.topDisciplines joined →
     b ∉ SankeyDiagram.topDisciplines joined →
     length (filter (λ r, SankeyDiagram.discipline r = b) joined)
     ≤ length (filter (λ r, SankeyDiagram.discipline r = a) joined))
  ∧ (∀ (joined : list MedalHeatmap.Joined) (a b : string),
     a ∈ MedalHeatmap.topCountries (MedalHeatmap.cells joined) →
     b ∉ MedalHeatmap.topCountries (MedalHeatmap.cells joined) →
     length (filter (λ r, MedalHeatmap.country r = b) joined)
     ≤ length (filter (λ r, MedalHeatmap.country r = a) joined))
  ∧ (∀ (joined : list MedalHeatmap.Joined) (a b : string),
     a ∈ MedalHeatmap.topDisciplines (MedalHeatmap.cells joined) →
     b ∉ MedalHeatmap.topDisciplines (MedalHeatmap.cells joined) →
     length (filter (λ r, MedalHeatmap.discipline r = b) joined)
     ≤ length (filter (λ r, MedalHeatmap.discipline r = a) joined)).
Proof.
  split_and!; intros joined a b.
  - apply totals_dominance, rollups_length_totals.
  - apply totals_dominance, rollups_length_totals.
  - apply totals_dominance. by apply (cells_totals _ _ (λ c _, c)).
  - apply totals_dominance. by apply (cells_totals _ _ (λ _ d, d)).
Qed.

Lemma top_sets_dominate_witness :
  "A" ∈ SankeyDiagram.topCountries nineCountries
  ∧ ("I" ∉ SankeyDiagram.topCountries nineCountries)
  ∧ length (filter (λ r, SankeyDiagram.country r = "I") nineCountries)
    ≤ length (filter (λ r, SankeyDiagram.country r = "A") nineCountries).
Proof.
  assert ("A" ∈ SankeyDiagram.topCountries nineCountries) as Ha
    by (apply (bool_decide_unpack _); by vm_compute).
  assert ("I" ∉ SankeyDiagram.topCountries nineCountries) as Hi
    by (apply (bool_decide_unpack _); by vm_compute).
  split; [exact Ha |]. split; [exact Hi |].
  exact (proj1 top_sets_dominate nineCountries "A" "I" Ha Hi).
Defined.

(** X4: with at most 8 distinct countries and at most 8 distinct disciplines
    among the joined records the Sankey narrows nothing: every joined record
    is kept. *)
Theorem sankey_small_unfiltered (joined : list SankeyDiagram.Joined) :
  length (firsts (SankeyDiagram.country <$> joined)) ≤ 8 →
  length (firsts (SankeyDiagram.discipline <$> joined)) ≤ 8 →
  SankeyDiagram.filtered joined = joined.
Proof.
  intros Hc Hd. unfold SankeyDiagram.filtered, SankeyDiagram.filterTop.
  apply filter_all. intros d Hin.
  unfold SankeyDiagram.topCountries, SankeyDiagram.topDisciplines.
  rewrite !topK_all by (by rewrite <- (length_fmap fst), rollups_keys).
  rewrite !rollups_keys, !firsts_elem_of.
  split; by apply list_elem_of_fmap_2.
Qed.

Lemma sankey_small_unfiltered_witness :
  length (firsts (SankeyDiagram.country <$> take 8 nineCountries)) ≤ 8
  ∧ length (firsts (SankeyDiagram.discipline <$> take 8 nineCountries)) ≤ 8
  ∧ SankeyDiagram.filtered (take 8 nineCountries) = take 8 nineCountries.
Proof.
  assert (length (firsts (SankeyDiagram.country <$> take 8 nineCountries)) ≤ 8)
    as Hc by (vm_compute; lia).
  assert (length (firsts (SankeyDiagram.discipline <$> take 8 nineCountries)) ≤ 8)
    as Hd by (vm_compute; lia).
  split; [exact Hc |]. split; [exact Hd |].
  exact (sankey_small_unfiltered _ Hc Hd).
Defined.

(** ** The Sankey's links and nodes *)

Section link_facts.
Context {A : Type} (key1 key2 : A → string).
Implicit Types (l : list A).

Lemma links_total l :
  sum_list_with SankeyDiagram.value
    (SankeyDiagram.pushLinks (D3.rollups2 l length key1 key2)) = length l.
Proof.
  rewrite pushLinks_triples, sum_list_with_fmap.
  change (SankeyDiagram.value ∘ linkOf) with (@snd (string * string) nat).
  apply triples_total.
Qed.

Lemma links_filter_total (Q : string → string → Prop)
    {Qdec : ∀ a b, Decision (Q a b)} l :
  sum_list_with SankeyDiagram.value
    (filter (λ k, Q (SankeyDiagram.source k) (SankeyDiagram.target k))
            (SankeyDiagram.pushLinks (D3.rollups2 l length key1 key2)))
  = length (filter (λ r, Q (key1 r) (key2 r)) l).
Proof.
  rewrite pushLinks_triples, filter_fmap, sum_list_with_fmap.
  change (SankeyDiagram.value ∘ linkOf) with (@snd (string * string) nat).
  exact (triples_filter_total key1 key2 Q l).
Qed.

Lemma links_pairs_NoDup l :
  NoDup ((λ k, (SankeyDiagram.source k, SankeyDiagram.target k))
           <$> SankeyDiagram.pushLinks (D3.rollups2 l length key1 key2)).
Proof.
  rewrite pushLinks_triples, <- list_fmap_compose.
  apply NoDup_fmap_2_strong; [| apply triples_NoDup].
  intros [[a b] n] [[a' b'] n'] Ht Ht' [= <- <-].
  apply triples_elem in Ht as [_ Hn], Ht' as [_ Hn']. simpl in *. congruence.
Qed.

Lemma links_values l :
  Forall (λ k, 1 ≤ SankeyDiagram.value k
               ∧ SankeyDiagram.value k
                 = length (filter (λ r, key1 r = SankeyDiagram.source k
                                        ∧ key2 r = SankeyDiagram.target k) l))
         (SankeyDiagram.pushLinks (D3.rollups2 l length key1 key2)).
Proof.
  rewrite pushLinks_triples. apply Forall_fmap, Forall_forall.
  intros [[a b] n] [(r & Hr & Hr1 & Hr2) Hn]%triples_elem. simpl in *.
  split; [| done]. rewrite Hn.
  assert (r ∈ filter (λ r, key1 r = a ∧ key2 r = b) l) as Hin
    by (by apply list_elem_of_filter).
  destruct (filter _ l); [by apply not_elem_of_nil in Hin | simpl; lia].
Qed.
End link_facts.

(** X5: flow is conserved at every discipline of the Sankey: the values of
    the links entering a discipline from the countries and the values of the
    links leaving it to the medal types both add up to the number of filtered
    records of that discipline; and each of the two groups of links carries
    every filtered record once. *)
Theorem sankey_flow_conservation (filtered : list SankeyDiagram.Joined)
    (d : string) :
  sum_list_with SankeyDiagram.value
    (filter (λ k, SankeyDiagram.target k = d)
            (SankeyDiagram.pushLinks (SankeyDiagram.countryToDiscipline filtered)))
  = length (filter (λ r, SankeyDiagram.discipline r = d) filtered)
  ∧ sum_list_with SankeyDiagram.value
      (filter (λ k, SankeyDiagram.source k = d)
              (SankeyDiagram.pushLinks (SankeyDiagram.disciplineToMedal filtered)))
    = length (filter (λ r, SankeyDiagram.discipline r = d) filtered)
  ∧ sum_list_with SankeyDiagram.value
      (SankeyDiagram.pushLinks (SankeyDiagram.countryToDiscipline filtered))
    = length filtered
  ∧ sum_list_with SankeyDiagram.value
      (SankeyDiagram.pushLinks (SankeyDiagram.disciplineToMedal filtered))
    = length filtered.
Proof.
  unfold SankeyDiagram.countryToDiscipline, SankeyDiagram.disciplineToMedal.
  split_and!; try apply links_total.
  - exact (links_filter_total SankeyDiagram.country SankeyDiagram.discipline
             (λ _ t, t = d) (Qdec := λ _ t, decide (t = d)) filtered).
  - exact (links_filter_total SankeyDiagram.discipline SankeyDiagram.medal
             (λ s _, s = d) (Qdec := λ s _, decide (s = d)) filtered).
Qed.

(** X6: the Sankey never emits two links for one (source, target) pair within
    a group, and never a link of value zero: a link's value is the number of
    filtered records with its pair of keys, which is at least one. *)
Theorem sankey_links_wellformed (filtered : list SankeyDiagram.Joined) :
  NoDup ((λ k, (SankeyDiagram.source k, SankeyDiagram.target k))
           <$> SankeyDiagram.pushLinks (SankeyDiagram.countryToDiscipline filtered))
  ∧ NoDup ((λ k, (SankeyDiagram.source k, SankeyDiagram.target k))
             <$> SankeyDiagram.pushLinks (SankeyDiagram.disciplineToMedal filtered))
  ∧ Forall (λ k, 1 ≤ SankeyDiagram.value k
                 ∧ SankeyDiagram.value k
                   = length (filter (λ r, SankeyDiagram.country r = SankeyDiagram.source k
                                          ∧ SankeyDiagram.discipline r = SankeyDiagram.target k)
                                    filtered))
           (SankeyDiagram.pushLinks (SankeyDiagram.countryToDiscipline filtered))
  ∧ Forall (λ k, 1 ≤ SankeyDiagram.value k
                 ∧ SankeyDiagram.value k
                   = length (filter (λ r, SankeyDiagram.discipline r = SankeyDiagram.source k
                                          ∧ SankeyDiagram.medal r = SankeyDiagram.target k)
                                    filtered))
           (SankeyDiagram.pushLinks (SankeyDiagram.disciplineToMedal filtered)).
Proof.
  split_and!; [apply links_pairs_NoDup | apply links_pairs_NoDup
              | apply links_values | apply links_values].
Qed.

Lemma add_firsts (x : string) (l : list string) :
  SankeyDiagram.add x (firsts l) = firsts (l ++ [x]).
Proof.
  unfold SankeyDiagram.add. rewrite firsts_snoc.
  destruct (decide (x ∈ firsts l)) as [Hin|Hin], (decide (x ∈ l)) as [Hl|Hl];
    try done; exfalso.
  - by apply Hl, firsts_elem_of.
  - by apply Hin, firsts_elem_of.
Qed.

Lemma nodeNames_firsts (links : list SankeyDiagram.SankeyLink) :
  SankeyDiagram.nodeNames links = firsts (endpoints links).
Proof.
  unfold SankeyDiagram.nodeNames, endpoints.
  induction links as [|k links IH] using rev_ind; [done |].
  rewrite foldl_app, bind_app, IH. csimpl.
  by rewrite !add_firsts, <- app_assoc.
Qed.

(** X7: the node names of the Sankey are the end points of its links, each
    once, in the order of first appearance: every link's source and target is
    a node, no node is listed twice and none is unused; there are no nodes
    exactly when there are no links, and no links exactly when no record
    passed the filter. *)
Theorem sankey_nodes (links : list SankeyDiagram.SankeyLink) :
  SankeyDiagram.nodeNames links = firsts (endpoints links)
  ∧ NoDup (SankeyDiagram.nodeNames links)
  ∧ Forall (λ k, SankeyDiagram.source k ∈ SankeyDiagram.nodeNames links
                 ∧ SankeyDiagram.target k ∈ SankeyDiagram.nodeNames links) links
  ∧ SankeyDiagram.nodeNames links ⊆ endpoints links
  ∧ (SankeyDiagram.nodeNames links = [] ↔ links = [])
  ∧ (∀ filtered, SankeyDiagram.linkMap filtered = [] ↔ filtered = []).
Proof.
  rewrite nodeNames_firsts. split_and!.
  - done.
  - apply firsts_NoDup.
  - apply Forall_forall. intros k Hk. rewrite !firsts_elem_of.
    unfold endpoints. rewrite !list_elem_of_bind.
    split; exists k; (split; [| done]); set_solver.
  - intros x. by rewrite firsts_elem_of.
  - split; [| by intros ->].
    destruct links as [|k links]; [done |]. csimpl. discriminate.
  - intros filtered. split; [| by intros ->].
    intros Hl. apply length_zero_iff_nil.
    rewrite <- (links_total SankeyDiagram.country SankeyDiagram.discipline filtered).
    unfold SankeyDiagram.linkMap in Hl. apply app_eq_nil in Hl as [Hl _].
    unfold SankeyDiagram.countryToDiscipline in Hl. by rewrite Hl.
Qed.

(** ** The heatmap's cells, scales and largest value *)

Section set_facts.
Context {K : Type} `{EqDecision K}.
Implicit Types (l : list K) (x : K).

Lemma JSSet_from_firsts l : JSSet.from l = firsts l.
Proof.
  unfold JSSet.from. induction l as [|x l IH] using rev_ind; [done |].
  rewrite foldl_app, IH, firsts_snoc. simpl. unfold JSSet.add.
  destruct (decide (x ∈ firsts l)) as [Hin|Hin], (decide (x ∈ l)) as [Hl|Hl];
    try done; exfalso.
  - by apply Hl, firsts_elem_of.
  - by apply Hin, firsts_elem_of.
Qed.

Lemma firsts_NoDup_id l : NoDup l → firsts l = l.
Proof.
  induction 1 as [|x l Hx Hl IH]; simpl; [done |].
  rewrite IH. f_equal. apply filter_all. intros y Hy ->. done.
Qed.

Lemma firsts_app l1 l2 :
  firsts (l1 ++ l2) = firsts l1 ++ filter (λ y, y ∉ l1) (firsts l2).
Proof.
  induction l1 as [|x l1 IH]; simpl.
  - symmetry. apply filter_all. intros y _. apply not_elem_of_nil.
  - rewrite IH, filter_app, list_filter_filter. do 2 f_equal.
    apply list_filter_iff. intros y. rewrite not_elem_of_cons. tauto.
Qed.

(** A value of the domain has a band, the index of its first occurrence. *)
Lemma band_Some domain x :
  x ∈ domain →
  ∃ i, D3Scale.band domain x = Some i ∧ firsts domain !! i = Some x.
Proof.
  intros Hx. unfold D3Scale.band. rewrite JSSet_from_firsts.
  destruct (list_find_elem_of (λ y, y = x) (firsts domain) x) as [[i y] Hf];
    [by apply firsts_elem_of | done |].
  rewrite Hf. exists i. split; [done |].
  apply list_find_Some in Hf as (Hi & -> & _). done.
Qed.

Lemma band_lookup domain x i :
  D3Scale.band domain x = Some i → firsts domain !! i = Some x.
Proof.
  unfold D3Scale.band. rewrite JSSet_from_firsts.
  destruct (list_find _ _) as [[j y]|] eqn:Hf; [| done].
  intros [= <-]. apply list_find_Some in Hf as (Hi & -> & _). done.
Qed.

Lemma band_None domain x : D3Scale.band domain x = None ↔ x ∉ domain.
Proof.
  unfold D3Scale.band. rewrite JSSet_from_firsts, fmap_None, list_find_None.
  rewrite Forall_forall. split.
  - intros Hall Hx. apply (Hall x); [by apply firsts_elem_of | done].
  - intros Hx y Hy ->. by apply Hx, firsts_elem_of.
Qed.
End set_facts.

Lemma max_spec {A} (values : list A) (valueof : A → nat) :
  match D3Scale.max values valueof with
  | None => values = []
  | Some m => Forall (λ v, valueof v ≤ m) values ∧ ∃ v, v ∈ values ∧ valueof v = m
  end.
Proof.
  unfold D3Scale.max.
  induction values as [|v values IH] using rev_ind; [done |].
  rewrite foldl_app. simpl.
  destruct (foldl _ None values) as [m|].
  - destruct IH as [Hall (w & Hw & Hm)]. case_decide.
    + split.
      * apply Forall_app. split; [| by repeat constructor].
        eapply Forall_impl; [exact Hall |]. simpl. intros; lia.
      * exists v. split; [| done]. apply elem_of_app. right. left.
    + split.
      * apply Forall_app. split; [done |]. repeat constructor. lia.
      * exists w. split; [| done]. apply elem_of_app. by left.
  - subst values. split; [by repeat constructor |].
    exists v. split; [left | done].
Qed.

Lemma cells_elem (joined : list MedalHeatmap.Joined) (c : MedalHeatmap.HeatmapCell) :
  c ∈ MedalHeatmap.cells joined
  ↔ (∃ r, r ∈ joined ∧ MedalHeatmap.country r = MedalHeatmap.cell_country c
          ∧ MedalHeatmap.discipline r = MedalHeatmap.cell_discipline c)
    ∧ MedalHeatmap.value c
      = length (filter (λ r, MedalHeatmap.country r = MedalHeatmap.cell_country c
                             ∧ MedalHeatmap.discipline r = MedalHeatmap.cell_discipline c)
                       joined).
Proof.
  unfold MedalHeatmap.cells, MedalHeatmap.rolled.
  rewrite pushCells_triples, list_elem_of_fmap. split.
  - intros (t & -> & Ht). by apply triples_elem in Ht.
  - destruct c as [a b n]. simpl. intros Hc. exists (a, b, n). split; [done |].
    by apply triples_elem.
Qed.

Lemma cell_value_pos (joined : list MedalHeatmap.Joined) (c : MedalHeatmap.HeatmapCell) :
  c ∈ MedalHeatmap.cells joined → 1 ≤ MedalHeatmap.value c.
Proof.
  intros [(r & Hr & Hr1 & Hr2) ->]%cells_elem.
  assert (r ∈ filter (λ r, MedalHeatmap.country r = MedalHeatmap.cell_country c
                           ∧ MedalHeatmap.discipline r = MedalHeatmap.cell_discipline c)
                     joined) as Hin by (by apply list_elem_of_filter).
  destruct (filter _ joined); [by apply not_elem_of_nil in Hin | simpl; lia].
Qed.

Lemma cells_pair_inj (joined : list MedalHeatmap.Joined)
    (c1 c2 : MedalHeatmap.HeatmapCell) :
  c1 ∈ MedalHeatmap.cells joined → c2 ∈ MedalHeatmap.cells joined →
  MedalHeatmap.cell_country c1 = MedalHeatmap.cell_country c2 →
  MedalHeatmap.cell_discipline c1 = MedalHeatmap.cell_discipline c2 →
  c1 = c2.
Proof.
  intros [_ H1]%cells_elem [_ H2]%cells_elem Hc Hd.
  destruct c1 as [a1 b1 n1], c2 as [a2 b2 n2]. simpl in *.
  subst a2 b2. by rewrite H1, H2.
Qed.

Lemma cells_NoDup (joined : list MedalHeatmap.Joined) :
  NoDup (MedalHeatmap.cells joined).
Proof.
  unfold MedalHeatmap.cells, MedalHeatmap.rolled. rewrite pushCells_triples.
  apply NoDup_fmap_2_strong; [| apply triples_NoDup].
  intros [[a b] n] [[a' b'] n'] _ _ [= <- <- <-]. done.
Qed.

Lemma heatmapData_sub (joined : list MedalHeatmap.Joined) (c : MedalHeatmap.HeatmapCell) :
  c ∈ MedalHeatmap.heatmapData joined →
  c ∈ MedalHeatmap.cells joined
  ∧ MedalHeatmap.cell_country c ∈ MedalHeatmap.topCountries (MedalHeatmap.cells joined)
  ∧ MedalHeatmap.cell_discipline c
      ∈ MedalHeatmap.topDisciplines (MedalHeatmap.cells joined).
Proof.
  unfold MedalHeatmap.heatmapData, MedalHeatmap.filterTop.
  rewrite list_elem_of_filter. tauto.
Qed.

(** X8: the heatmap covers every joined record once: the values of all cells
    add up to the number of joined records and the values of the cells that
    are kept to the number of joined records with both keys in the top sets;
    no (country, discipline) pair has two cells, and a cell's value is the
    number of joined records of its pair, at least one. *)
Theorem heatmap_cells_account (joined : list MedalHeatmap.Joined) :
  sum_list_with MedalHeatmap.value (MedalHeatmap.cells joined) = length joined
  ∧ sum_list_with MedalHeatmap.value (MedalHeatmap.heatmapData joined)
    = length (filter (λ r, MedalHeatmap.country r
                             ∈ MedalHeatmap.topCountries (MedalHeatmap.cells joined)
                           ∧ MedalHeatmap.discipline r
                             ∈ MedalHeatmap.topDisciplines (MedalHeatmap.cells joined))
                     joined)
  ∧ NoDup ((λ c, (MedalHeatmap.cell_country c, MedalHeatmap.cell_discipline c))
             <$> MedalHeatmap.cells joined)
  ∧ Forall (λ c, 1 ≤ MedalHeatmap.value c
                 ∧ MedalHeatmap.value c
                   = length (filter (λ r, MedalHeatmap.country r = MedalHeatmap.cell_country c
                                          ∧ MedalHeatmap.discipline r
                                            = MedalHeatmap.cell_discipline c)
                                    joined))
           (MedalHeatmap.cells joined).
Proof.
  split_and!.
  - unfold MedalHeatmap.cells, MedalHeatmap.rolled.
    rewrite pushCells_triples, sum_list_with_fmap.
    change (MedalHeatmap.value ∘ cellOf) with (@snd (string * string) nat).
    apply triples_total.
  - unfold MedalHeatmap.heatmapData, MedalHeatmap.filterTop.
    set (tc := MedalHeatmap.topCountries _). set (td := MedalHeatmap.topDisciplines _).
    unfold MedalHeatmap.cells, MedalHeatmap.rolled.
    rewrite pushCells_triples, filter_fmap, sum_list_with_fmap.
    change (MedalHeatmap.value ∘ cellOf) with (@snd (string * string) nat).
    exact (triples_filter_total MedalHeatmap.country MedalHeatmap.discipline
             (λ a b, a ∈ tc ∧ b ∈ td) joined).
  - apply NoDup_fmap_2_strong; [| apply cells_NoDup].
    intros c1 c2 H1 H2 [= Hc Hd]. by eapply cells_pair_inj.
  - apply Forall_forall. intros c Hc. split; [by eapply cell_value_pos |].
    by apply cells_elem in Hc as [_ ?].
Qed.

Lemma view_countries (data : list MedalHeatmap.HeatmapCell) :
  HeatmapView.countries data = firsts (MedalHeatmap.cell_country <$> data).
Proof. apply JSSet_from_firsts. Qed.

Lemma view_disciplines (data : list MedalHeatmap.HeatmapCell) :
  HeatmapView.disciplines data = firsts (MedalHeatmap.cell_discipline <$> data).
Proof. apply JSSet_from_firsts. Qed.

(** A value drawn from the list a scale's domain was built from has a band
    below the number of bands. *)
Lemma band_of_firsts {K} `{EqDecision K} (l : list K) (x : K) :
  x ∈ l → ∃ i, D3Scale.band (firsts l) x = Some i ∧ i < length (firsts l).
Proof.
  intros Hx. destruct (band_Some (firsts l) x) as (i & Hb & Hi);
    [by apply firsts_elem_of |].
  exists i. split; [done |].
  rewrite (firsts_NoDup_id (firsts l)) in Hi by apply firsts_NoDup.
  by eapply lookup_lt_Some.
Qed.

Lemma band_inj {K} `{EqDecision K} (domain : list K) (x y : K) (i : nat) :
  D3Scale.band domain x = Some i → D3Scale.band domain y = Some i → x = y.
Proof. intros Hx%band_lookup Hy%band_lookup. congruence. Qed.

(** X9: the heatmap has at most 15 rows and 8 columns, no country or
    discipline twice on an axis; every kept cell has a band on both scales,
    within range, so its rectangle has a position; and no two cells get the
    same pair of bands, so no rectangle is drawn over another. *)
Theorem heatmap_bands (joined : list MedalHeatmap.Joined) :
  let data := MedalHeatmap.heatmapData joined in
  NoDup (HeatmapView.countries data)
  ∧ NoDup (HeatmapView.disciplines data)
  ∧ length (HeatmapView.countries data) ≤ 15
  ∧ length (HeatmapView.disciplines data) ≤ 8
  ∧ Forall (λ d, ∃ col row,
                HeatmapView.rect data d = (Some col, Some row)
                ∧ col < length (HeatmapView.disciplines data)
                ∧ row < length (HeatmapView.countries data)) data
  ∧ NoDup (HeatmapView.rect data <$> data).
Proof.
  intros data.
  assert (∀ d, d ∈ data → ∃ col row,
            HeatmapView.rect data d = (Some col, Some row)
            ∧ col < length (HeatmapView.disciplines data)
            ∧ row < length (HeatmapView.countries data)) as Hrect.
  { intros d Hd. unfold HeatmapView.rect.
    rewrite view_countries, view_disciplines.
    destruct (band_of_firsts (MedalHeatmap.cell_discipline <$> data)
                (MedalHeatmap.cell_discipline d)) as (col & Hcol & Hlt);
      [by apply list_elem_of_fmap_2 |].
    destruct (band_of_firsts (MedalHeatmap.cell_country <$> data)
                (MedalHeatmap.cell_country d)) as (row & Hrow & Hlt');
      [by apply list_elem_of_fmap_2 |].
    exists col, row. by rewrite Hcol, Hrow. }
  rewrite view_countries, view_disciplines. split_and!.
  - apply firsts_NoDup.
  - apply firsts_NoDup.
  - etrans; [| apply (topK_length
                        (D3.rollups (MedalHeatmap.cells joined)
                           (λ v, D3.sum v MedalHeatmap.value) MedalHeatmap.cell_country) 15)].
    apply firsts_length_le. intros c (d & -> & Hd)%list_elem_of_fmap.
    by apply heatmapData_sub in Hd as (_ & ? & _).
  - etrans; [| apply (topK_length
                        (D3.rollups (MedalHeatmap.cells joined)
                           (λ v, D3.sum v MedalHeatmap.value) MedalHeatmap.cell_discipline) 8)].
    apply firsts_length_le. intros c (d & -> & Hd)%list_elem_of_fmap.
    by apply heatmapData_sub in Hd as (_ & _ & ?).
  - apply Forall_forall. intros d Hd.
    destruct (Hrect d Hd) as (col & row & Hr & ? & ?).
    rewrite view_countries, view_disciplines in *. eauto.
  - apply NoDup_fmap_2_strong.
    + intros d1 d2 H1 H2 Heq.
      destruct (Hrect d1 H1) as (col & row & Hr1 & _).
      rewrite Heq in Hr1. unfold HeatmapView.rect in Heq, Hr1.
      rewrite <- Heq in Hr1. injection Heq as Hcol Hrow. injection Hr1 as Hc1 Hr1.
      rewrite Hc1 in Hcol. rewrite Hr1 in Hrow. symmetry in Hcol, Hrow.
      apply heatmapData_sub in H1 as [H1 _], H2 as [H2 _].
      eapply cells_pair_inj; [done | done | |].
      * by eapply band_inj.
      * by eapply band_inj.
    + apply NoDup_filter, cells_NoDup.
Qed.

(** X10: the colour scale of the heatmap is never degenerate when something
    is drawn: every kept cell has a value between 1 and [maxValue], some kept
    cell has the value [maxValue], and [maxValue] is 0 only when no cell is
    kept. *)
Theorem heatmap_maxValue (joined : list MedalHeatmap.Joined) :
  let data := MedalHeatmap.heatmapData joined in
  Forall (λ d, 1 ≤ MedalHeatmap.value d
               ∧ MedalHeatmap.value d ≤ HeatmapView.maxValue data) data
  ∧ (data = [] ∧ HeatmapView.maxValue data = 0
     ∨ ∃ d, d ∈ data ∧ MedalHeatmap.value d = HeatmapView.maxValue data).
Proof.
  intros data. unfold HeatmapView.maxValue.
  pose proof (max_spec data MedalHeatmap.value) as Hmax.
  destruct (D3Scale.max data MedalHeatmap.value) as [m|]; simpl.
  - destruct Hmax as [Hall Hex]. split; [| by right].
    apply Forall_forall. intros d Hd. split.
    + apply heatmapData_sub in Hd as [Hd _]. by eapply cell_value_pos.
    + by apply (proj1 (Forall_forall _ _) Hall).
  - rewrite Hmax. split; [constructor | by left].
Qed.

Lemma firsts_length_eq {K} `{EqDecision K} (l1 l2 : list K) :
  (∀ x, x ∈ l1 ↔ x ∈ l2) → length (firsts l1) = length (firsts l2).
Proof.
  intros Heq. apply Permutation_length, NoDup_Permutation;
    [apply firsts_NoDup | apply firsts_NoDup |].
  intros x. by rewrite !firsts_elem_of.
Qed.

Lemma firsts_all_same {K} `{EqDecision K} (l : list K) (k : K) :
  l ≠ [] → (∀ y, y ∈ l → y = k) → firsts l = [k].
Proof.
  destruct l as [|y r]; [done |]. intros _ Hall. simpl.
  rewrite (Hall y) by left. f_equal.
  apply filter_none. intros z Hz Hne. apply Hne, Hall. right.
  by apply firsts_elem_of.
Qed.

Lemma firsts_bind_own {K B} `{EqDecision K} (ks : list K) (g : K → list B)
    (f : B → K) :
  NoDup ks → (∀ k, k ∈ ks → g k ≠ [] ∧ ∀ y, y ∈ g k → f y = k) →
  firsts (f <$> (ks ≫= g)) = ks.
Proof.
  induction 1 as [|k ks Hk Hnd IH]; intros Hg; csimpl; [done |].
  destruct (Hg k) as [Hne Hall]; [left |].
  rewrite fmap_app, firsts_app, IH by (intros k' Hk'; apply Hg; by right).
  rewrite (firsts_all_same (f <$> g k) k).
  - simpl. f_equal. apply filter_all.
    intros y Hy (z & -> & Hz)%list_elem_of_fmap.
    rewrite (Hall z Hz) in Hy. done.
  - by destruct (g k).
  - intros y (z & -> & Hz)%list_elem_of_fmap. by apply Hall.
Qed.

Lemma totals_determined {A K} `{EqDecision K} (l : list A) (keyof : A → K)
    (entries : list (K * nat)) :
  totals l keyof entries →
  entries = (λ k, (k, length (filter (λ r, keyof r = k) l))) <$> entries.*1.
Proof.
  intros [_ Ht]. rewrite <- list_fmap_compose.
  rewrite <- (list_fmap_id entries) at 1.
  apply list_fmap_ext. intros i [k n] Hi. simpl.
  apply list_elem_of_lookup_2, Ht in Hi as [_ ->]. done.
Qed.

Lemma cells_countries (joined : list MedalHeatmap.Joined) :
  firsts (MedalHeatmap.cell_country <$> MedalHeatmap.cells joined)
  = firsts (MedalHeatmap.country <$> joined).
Proof.
  unfold MedalHeatmap.cells, MedalHeatmap.rolled.
  rewrite pushCells_triples, <- list_fmap_compose, triples_rollups2.
  apply firsts_bind_own; [apply firsts_NoDup |].
  intros k Hk. split.
  - apply firsts_elem_of, list_elem_of_fmap in Hk as (r & -> & Hr).
    intros Hnil.
    assert (MedalHeatmap.discipline r
              ∈ firsts (MedalHeatmap.discipline
                          <$> filter (λ r', MedalHeatmap.country r' = MedalHeatmap.country r)
                                     joined)) as Hin.
    { apply firsts_elem_of, list_elem_of_fmap_2. by apply list_elem_of_filter. }
    destruct (firsts _) as [|d ds]; [by apply not_elem_of_nil in Hin |].
    csimpl in Hnil. discriminate.
  - intros t (k2 & Ht & _)%list_elem_of_bind.
    apply list_elem_of_singleton in Ht as ->. done.
Qed.

Lemma rollups_fmap {A B K} `{EqDecision K} (f : B → A) (keyof : A → K)
    (l : list B) :
  D3.rollups (f <$> l) length keyof = D3.rollups l length (keyof ∘ f).
Proof.
  rewrite !rollups_spec, <- list_fmap_compose.
  apply list_fmap_ext. intros _ k _. f_equal.
  by rewrite filter_fmap, length_fmap.
Qed.

Lemma cells_country_entries (joined : list MedalHeatmap.Joined) :
  D3.rollups (MedalHeatmap.cells joined) (λ v, D3.sum v MedalHeatmap.value)
             MedalHeatmap.cell_country
  = D3.rollups joined length MedalHeatmap.country.
Proof.
  rewrite (totals_determined joined MedalHeatmap.country (D3.rollups (MedalHeatmap.cells joined) _ _))
    by (by apply (cells_totals _ _ (λ c _, c))).
  rewrite (totals_determined joined MedalHeatmap.country (D3.rollups joined length _))
    by apply rollups_length_totals.
  by rewrite !rollups_keys, cells_countries.
Qed.

(** X11: the heatmap ranks its countries exactly as the Sankey does: the
    entries it builds from the cells, sums of cell values in order of first
    cell, are the entries of the joined records, counts in order of first
    record; so its 15 top countries are the top-K of that list, and on the
    same records the Sankey's 8 top countries are the first 8 of them. *)
Theorem heatmap_country_ranking :
  (∀ joined : list MedalHeatmap.Joined,
     D3.rollups (MedalHeatmap.cells joined) (λ v, D3.sum v MedalHeatmap.value)
                MedalHeatmap.cell_country
     = D3.rollups joined length MedalHeatmap.country
     ∧ MedalHeatmap.topCountries (MedalHeatmap.cells joined)
       = topK (D3.rollups joined length MedalHeatmap.country) 15)
  ∧ (∀ joined : list SankeyDiagram.Joined,
       SankeyDiagram.topCountries joined
       = take 8 (MedalHeatmap.topCountries
                   (MedalHeatmap.cells (forgetMedal <$> joined)))).
Proof.
  split; intros joined.
  - unfold MedalHeatmap.topCountries. by rewrite cells_country_entries.
  - unfold MedalHeatmap.topCountries, SankeyDiagram.topCountries.
    rewrite cells_country_entries, rollups_fmap.
    by rewrite <- (topK_take _ 8 15).
Qed.

(** X12: with at most 15 distinct countries and at most 8 distinct disciplines
    among the joined records the heatmap narrows nothing: every cell is
    kept. *)
Theorem heatmap_small_unfiltered (joined : list MedalHeatmap.Joined) :
  length (firsts (MedalHeatmap.country <$> joined)) ≤ 15 →
  length (firsts (MedalHeatmap.discipline <$> joined)) ≤ 8 →
  MedalHeatmap.heatmapData joined = MedalHeatmap.cells joined.
Proof.
  intros Hc Hd. unfold MedalHeatmap.heatmapData, MedalHeatmap.filterTop.
  apply filter_all. intros c Hin.
  unfold MedalHeatmap.topCountries, MedalHeatmap.topDisciplines.
  rewrite !topK_all.
  - rewrite !rollups_keys, !firsts_elem_of. split; by apply list_elem_of_fmap_2.
  - rewrite <- (length_fmap fst), rollups_keys.
    rewrite (firsts_length_eq _ (MedalHeatmap.discipline <$> joined)); [done |].
    intros d. rewrite !list_elem_of_fmap. split.
    + intros (c' & -> & [(r & Hr & _ & Hr2) _]%cells_elem). by exists r.
    + intros (r & -> & Hr).
      exists (MedalHeatmap.mkCell (MedalHeatmap.country r) (MedalHeatmap.discipline r)
                (length (filter (λ r', MedalHeatmap.country r' = MedalHeatmap.country r
                                       ∧ MedalHeatmap.discipline r'
                                         = MedalHeatmap.discipline r) joined))).
      split; [done |]. apply cells_elem. split; [by exists r | done].
  - by rewrite <- (length_fmap fst), rollups_keys, cells_countries.
Qed.

Lemma heatmap_small_unfiltered_witness :
  length (firsts (MedalHeatmap.country <$> (forgetMedal <$> nineCountries))) ≤ 15
  ∧ length (firsts (MedalHeatmap.discipline <$> (forgetMedal <$> nineCountries))) ≤ 8
  ∧ MedalHeatmap.heatmapData (forgetMedal <$> nineCountries)
    = MedalHeatmap.cells (forgetMedal <$> nineCountries).
Proof.
  assert (length (firsts (MedalHeatmap.country <$> (forgetMedal <$> nineCountries)))
          ≤ 15) as Hc by (vm_compute; lia).
  assert (length (firsts (MedalHeatmap.discipline <$> (forgetMedal <$> nineCountries)))
          ≤ 8) as Hd by (vm_compute; lia).
  split; [exact Hc |]. split; [exact Hd |].
  exact (heatmap_small_unfiltered _ Hc Hd).
Defined.

(** ** The name index and the two joins *)

Lemma indexStep_size (m : gmap string string) (d : Row.t) :
  size (indexStep m d) ≤ S (size m).
Proof.
  unfold indexStep. case_present; try lia.
  destruct (m !! normalizeName s true) eqn:Hm.
  - rewrite map_size_insert_Some by eauto. lia.
  - rewrite map_size_insert_None by done. lia.
Qed.

Lemma index_size (medallists : list Row.t) :
  size (foldl indexStep ∅ medallists) ≤ length medallists.
Proof.
  induction medallists as [|d rows IH] using rev_ind;
    [simpl; by rewrite map_size_empty |].
  rewrite foldl_app, length_app. simpl.
  pose proof (indexStep_size (foldl indexStep ∅ rows) d). lia.
Qed.

Lemma index_source (medallists : list Row.t) (key c : string) :
  foldl indexStep ∅ medallists !! key = Some c →
  ∃ d n, d ∈ medallists ∧ present (Row.name d) = Some n
         ∧ normalizeName n true = key ∧ present (Row.country d) = Some c.
Proof.
  rewrite index_lookup. intros Hlast.
  apply last_Some_elem_of, list_elem_of_omap in Hlast as (d & Hd & He).
  unfold indexEntry in He.
  destruct (present (Row.name d)) as [n|] eqn:Hn; simpl in He; [| done].
  destruct (present (Row.country d)) as [c'|] eqn:Hc; simpl in He; [| done].
  case_bool_decide; [| done]. injection He as <-. by exists d, n.
Qed.

(** X13: loading two medallist tables one after the other gives the index of
    the second laid over the index of the first: where both have a key the
    later table wins, and every other key is kept. *)
Theorem index_append (first second : list Row.t) :
  buildIndex (first ++ second)
  = (earlier ← buildIndex first; later ← buildIndex second; Ok (later ∪ earlier)).
Proof.
  rewrite !buildIndex_ok. simpl. f_equal.
  apply map_eq. intros key.
  rewrite lookup_union, !index_lookup, omap_app, last_app.
  by destruct (last (omap (indexEntry key) second)),
              (last (omap (indexEntry key) first)).
Qed.

(** X14: every entry of the name index comes from a medallist row: its key is
    the normalised (reversed) name of a row that has a name and a country,
    its value is that row's country, never empty; and the index has no more
    entries than there are rows. *)
Theorem index_entries (medallists : list Row.t) :
  ∃ nameToCountry : gmap string string,
    buildIndex medallists = Ok nameToCountry
    ∧ size nameToCountry ≤ length medallists
    ∧ map_Forall (λ key c,
        c ≠ ""
        ∧ ∃ d n, d ∈ medallists
                 ∧ Row.name d = Some n ∧ n ≠ ""
                 ∧ normalizeName n true = key
                 ∧ Row.country d = Some c) nameToCountry.
Proof.
  exists (foldl indexStep ∅ medallists). split_and!.
  - apply buildIndex_ok.
  - apply index_size.
  - intros key c Hkey. split; [by eapply index_nonempty |].
    apply index_source in Hkey as (d & n & Hd & Hn & Hk & Hc).
    exists d, n. split_and!; try done.
    + destruct (Row.name d) as [n'|]; simpl in Hn; [| done].
      case_bool_decide; congruence.
    + by eapply present_nonempty.
    + destruct (Row.country d) as [c'|]; simpl in Hc; [| done].
      case_bool_decide; congruence.
Qed.

Lemma joinRow_forget (idx : gmap string string) (d : Row.t) :
  forgetMedal <$> sankeyRecord idx d
  = if decide (hasMedal d) then heatmapRecord idx d else None.
Proof.
  unfold sankeyRecord, heatmapRecord, hasMedal.
  destruct (decide (present (Row.medal_type d) ≠ None)) as [Hm|Hm].
  - destruct (present (Row.medal_type d)) as [med|]; [| done].
    destruct (present (Row.name d)) as [n|]; simpl; [| done].
    destruct (present (Row.discipline d)) as [disc|]; simpl; [| done].
    by destruct (idx !! normalizeName n false).
  - apply dec_stable in Hm. rewrite Hm.
    destruct (present (Row.name d)) as [n|]; simpl; [| done].
    by destruct (present (Row.discipline d)).
Qed.

Lemma omap_filter {A B} (f : A → option B) (P : A → Prop) `{∀ x, Decision (P x)}
    (l : list A) :
  omap f (filter P l) = omap (λ x, if decide (P x) then f x else None) l.
Proof.
  induction l as [|x l IH]; [done |].
  rewrite filter_cons. csimpl. case_decide; csimpl; by rewrite IH.
Qed.

Lemma fmap_omap {A B C} (f : A → option B) (g : B → C) (l : list A) :
  g <$> omap f l = omap (λ x, g <$> f x) l.
Proof.
  induction l as [|x l IH]; [done |]. csimpl.
  destruct (f x); csimpl; by rewrite IH.
Qed.

(** X15: the Sankey joins exactly the medal rows the heatmap joins that also
    carry a medal type: its records, without the medal, are the heatmap's
    records of those rows, in the same order. *)
Theorem joins_agree (medallists medals : list Row.t) :
  ∃ nameToCountry sankey heatmap,
    buildIndex medallists = Ok nameToCountry
    ∧ SankeyDiagram.join nameToCountry medals = Ok sankey
    ∧ MedalHeatmap.join nameToCountry (filter hasMedal medals) = Ok heatmap
    ∧ forgetMedal <$> sankey = heatmap.
Proof.
  exists (foldl indexStep ∅ medallists).
  exists (omap (sankeyRecord (foldl indexStep ∅ medallists)) medals).
  exists (omap (heatmapRecord (foldl indexStep ∅ medallists)) (filter hasMedal medals)).
  split_and!.
  - apply buildIndex_ok.
  - apply mapNotNull_ok. intros d. apply sankey_joinRow_ok.
    intros key c. apply index_nonempty.
  - apply mapNotNull_ok. intros d. apply heatmap_joinRow_ok.
    intros key c. apply index_nonempty.
  - rewrite fmap_omap, omap_filter. apply list_omap_ext, Forall2_same_length_lookup.
    split; [done |]. intros i d d' Hd Hd'. simplify_eq. apply joinRow_forget.
Qed.

Lemma omap_length_le {A B C} (f : A → option B) (g : A → option C) (l : list A) :
  (∀ x, is_Some (f x) → is_Some (g x)) → length (omap f l) ≤ length (omap g l).
Proof.
  intros Hfg. induction l as [|x l IH]; csimpl; [done |].
  destruct (f x) eqn:Hf; csimpl.
  - destruct (Hfg x) as [c Hc]; [by rewrite Hf |]. rewrite Hc. csimpl. lia.
  - destruct (g x); csimpl; lia.
Qed.

Lemma omap_length {A B} (f : A → option B) (l : list A) :
  length (omap f l) ≤ length l.
Proof. induction l as [|x l IH]; csimpl; [done |]. destruct (f x); csimpl; lia. Qed.

Lemma present_Some (v : option string) (s : string) :
  present v = Some s → v = Some s ∧ s ≠ "".
Proof.
  destruct v as [s'|]; simpl; [| done]. case_bool_decide; [done |].
  intros [= <-]. done.
Qed.

(** X16: a joined record is made of fields read from the tables: its country
    is the non-empty country of some medallist row and its discipline (and,
    in the Sankey, its medal) the non-empty field of some medal row; the
    heatmap joins no more records than there are medal rows and the Sankey no
    more than the heatmap. *)
Theorem join_records (medallists medals : list Row.t) :
  ∃ nameToCountry sankey heatmap,
    buildIndex medallists = Ok nameToCountry
    ∧ SankeyDiagram.join nameToCountry medals = Ok sankey
    ∧ MedalHeatmap.join nameToCountry medals = Ok heatmap
    ∧ length sankey ≤ length heatmap
    ∧ length heatmap ≤ length medals
    ∧ Forall (λ r,
        SankeyDiagram.country r ≠ "" ∧ SankeyDiagram.discipline r ≠ ""
        ∧ SankeyDiagram.medal r ≠ ""
        ∧ (∃ m, m ∈ medallists ∧ Row.country m = Some (SankeyDiagram.country r))
        ∧ (∃ d, d ∈ medals ∧ Row.discipline d = Some (SankeyDiagram.discipline r)
                ∧ Row.medal_type d = Some (SankeyDiagram.medal r))) sankey
    ∧ Forall (λ r,
        MedalHeatmap.country r ≠ "" ∧ MedalHeatmap.discipline r ≠ ""
        ∧ (∃ m, m ∈ medallists ∧ Row.country m = Some (MedalHeatmap.country r))
        ∧ (∃ d, d ∈ medals
                ∧ Row.discipline d = Some (MedalHeatmap.discipline r))) heatmap.
Proof.
  set (idx := foldl indexStep ∅ medallists).
  assert (∀ key c, idx !! key = Some c →
            c ≠ "" ∧ ∃ m, m ∈ medallists ∧ Row.country m = Some c) as Hidx.
  { intros key c Hc. split; [by eapply index_nonempty |].
    apply index_source in Hc as (m & n & Hm & _ & _ & Hc).
    exists m. split; [done |]. by apply present_Some in Hc as [? _]. }
  exists idx, (omap (sankeyRecord idx) medals), (omap (heatmapRecord idx) medals).
  split_and!.
  - apply buildIndex_ok.
  - apply mapNotNull_ok. intros d. apply sankey_joinRow_ok.
    intros key c. apply index_nonempty.
  - apply mapNotNull_ok. intros d. apply heatmap_joinRow_ok.
    intros key c. apply index_nonempty.
  - apply omap_length_le. intros d. unfold sankeyRecord, heatmapRecord.
    destruct (present (Row.name d)); simpl; [| by intros [? ?]].
    destruct (present (Row.discipline d)); simpl; [| by intros [? ?]].
    destruct (present (Row.medal_type d)); simpl; [| by intros [? ?]].
    destruct (idx !! _); simpl; [eauto | by intros [? ?]].
  - apply omap_length.
  - apply Forall_forall. intros r (d & Hd & Hr)%list_elem_of_omap.
    unfold sankeyRecord in Hr.
    destruct (present (Row.name d)) as [n|]; simpl in Hr; [| done].
    destruct (present (Row.discipline d)) as [disc|] eqn:Hdisc; simpl in Hr; [| done].
    destruct (present (Row.medal_type d)) as [med|] eqn:Hmed; simpl in Hr; [| done].
    destruct (idx !! normalizeName n false) as [c|] eqn:Hc; simpl in Hr; [| done].
    injection Hr as <-. simpl.
    apply present_Some in Hdisc as [? ?], Hmed as [? ?].
    destruct (Hidx _ _ Hc) as [? ?]. split_and!; try done. by exists d.
  - apply Forall_forall. intros r (d & Hd & Hr)%list_elem_of_omap.
    unfold heatmapRecord in Hr.
    destruct (present (Row.name d)) as [n|]; simpl in Hr; [| done].
    destruct (present (Row.discipline d)) as [disc|] eqn:Hdisc; simpl in Hr; [| done].
    destruct (idx !! normalizeName n false) as [c|] eqn:Hc; simpl in Hr; [| done].
    injection Hr as <-. simpl.
    apply present_Some in Hdisc as [? ?].
    destruct (Hidx _ _ Hc) as [? ?]. split_and!; try done. by exists d.
Qed.

Lemma mapNotNull_app {A B} (f : A → Exc (option B)) (l1 l2 : list A) :
  (∀ d, ∃ r, f d = Ok r) →
  mapNotNull f (l1 ++ l2)
  = (j1 ← mapNotNull f l1; j2 ← mapNotNull f l2; Ok (j1 ++ j2)).
Proof.
  intros Hf.
  set (g := λ d, match f d with Ok r => r | TypeError => None end).
  assert (∀ d, f d = Ok (g d)) as Hg.
  { intros d. unfold g. by destruct (Hf d) as [r ->]. }
  rewrite !(mapNotNull_ok f g) by done. simpl. by rewrite omap_app.
Qed.

(** X17: both joins work row by row: for any index, joining two medal tables
    laid end to end gives the records of the first followed by the records of
    the second. *)
Theorem join_append (nameToCountry : gmap string string) (first second : list Row.t) :
  SankeyDiagram.join nameToCountry (first ++ second)
  = (j1 ← SankeyDiagram.join nameToCountry first;
     j2 ← SankeyDiagram.join nameToCountry second; Ok (j1 ++ j2))
  ∧ MedalHeatmap.join nameToCountry (first ++ second)
    = (j1 ← MedalHeatmap.join nameToCountry first;
       j2 ← MedalHeatmap.join nameToCountry second; Ok (j1 ++ j2)).
Proof.
  split.
  - apply mapNotNull_app, sankey_joinRow_total.
  - apply mapNotNull_app, heatmap_joinRow_total.
Qed.

(** ** Name keys: when two names join *)

Lemma toLowerChar_space (c : ascii) : isWhiteSpace (toLowerChar c) = isWhiteSpace c.
Proof. destruct c as [[] [] [] [] [] [] [] []]; reflexivity. Qed.



Lemma toLowerCase_empty (s : string) : toLowerCase s = "" ↔ s = "".
Proof. by destruct s. Qed.

Lemma cutAll_toLowerCase (s : string) :
  cutAll (toLowerCase s) = toLowerCase <$> cutAll s.
Proof.
  induction s as [|c s IH]; simpl; [done |].
  rewrite toLowerChar_space, IH.
  destruct (isWhiteSpace c); [done |]. by destruct (cutAll s).
Qed.

Lemma tokens_toLowerCase (s : string) :
  tokens (toLowerCase s) = toLowerCase <$> tokens s.
Proof.
  unfold tokens. rewrite cutAll_toLowerCase, filter_fmap. f_equal.
  apply list_filter_iff. intros p. by rewrite toLowerCase_empty.
Qed.

Lemma spaceless_toLowerCase (s : string) : spaceless s → spaceless (toLowerCase s).
Proof.
  induction s as [|c s IH]; simpl; [done |].
  rewrite toLowerChar_space. tauto.
Qed.

Lemma cutAll_spaceless (s : string) : Forall spaceless (cutAll s).
Proof.
  induction s as [|c s IH]; simpl; [by repeat constructor |].
  destruct (isWhiteSpace c) eqn:Hc; [by constructor |].
  destruct (cutAll s) as [|p ps]; [by repeat constructor |].
  apply Forall_cons in IH as [Hp Hps]. by repeat constructor.
Qed.

Lemma tokens_spaceless (s : string) :
  Forall (λ t, t ≠ "" ∧ spaceless t) (tokens s).
Proof.
  unfold tokens. apply Forall_forall. intros t [Hne Ht]%list_elem_of_filter.
  split; [done |]. by apply (proj1 (Forall_forall _ _) (cutAll_spaceless s)).
Qed.

Lemma cutAll_join (a b : string) :
  spaceless a → cutAll (a +:+ " " +:+ b) = a :: cutAll b.
Proof.
  induction a as [|c a IH]; simpl; [done |].
  intros [Hc Ha]. by rewrite Hc, IH.
Qed.

Lemma cutAll_one (b : string) : spaceless b → cutAll b = [b].
Proof.
  induction b as [|c b IH]; simpl; [done |].
  intros [Hc Hb]. by rewrite Hc, IH.
Qed.

(** Two tokens joined by a space are the two tokens of the result. *)
Lemma tokens_join (a b : string) :
  a ≠ "" → spaceless a → b ≠ "" → spaceless b →
  tokens (a +:+ " " +:+ b) = [a; b].
Proof.
  intros Ha Hsa Hb Hsb. unfold tokens.
  rewrite cutAll_join, cutAll_one by done.
  by rewrite !filter_cons_True by done.
Qed.

Lemma normalizeName_tokens (name : string) (reversed : bool) :
  normalizeName name reversed
  = match firstTwo (tokens name) with
    | Some (token0, token1) =>
        if reversed then toLowerCase token1 +:+ " " +:+ toLowerCase token0
        else toLowerCase token0 +:+ " " +:+ toLowerCase token1
    | None => toLowerCase name
    end.
Proof.
  unfold normalizeName. rewrite split_trim_tokens.
  destruct (tokens name) as [|token0 [|token1 rest]]; try done.
  rewrite bool_decide_eq_false_2 by (simpl; lia).
  unfold interpolate; simpl.
  destruct reversed; by rewrite !toLowerCase_app.
Qed.

Lemma firstTwo_fmap (f : string → string) (ts : list string) :
  firstTwo (f <$> ts) = (λ p, (f p.1, f p.2)) <$> firstTwo ts.
Proof. by destruct ts as [|t0 [|t1 rest]]. Qed.

Lemma firstTwo_tokens (name t0 t1 : string) :
  firstTwo (tokens name) = Some (t0, t1) →
  t0 ≠ "" ∧ spaceless t0 ∧ t1 ≠ "" ∧ spaceless t1.
Proof.
  pose proof (tokens_spaceless name) as Hall.
  destruct (tokens name) as [|a [|b rest]]; simpl; try done.
  intros [= <- <-].
  apply Forall_cons in Hall as [[? ?] Hall]. apply Forall_cons in Hall as [[? ?] _].
  done.
Qed.

(** The tokens of a key built from two tokens. *)
Lemma key_tokens (t0 t1 : string) :
  t0 ≠ "" → spaceless t0 → t1 ≠ "" → spaceless t1 →
  tokens (toLowerCase t0 +:+ " " +:+ toLowerCase t1)
  = [toLowerCase t0; toLowerCase t1].
Proof.
  intros. apply tokens_join; try (by apply spaceless_toLowerCase);
    by rewrite toLowerCase_empty.
Qed.


(** X19: when a medallist and a medal row join: the reversed key of one name
    equals the unreversed key of another exactly when both names have two or
    more tokens and the first two of the one are, up to letter case, the
    first two of the other in the opposite order, or when both have fewer
    than two tokens and are equal up to letter case as whole strings,
    surrounding white space included; a name of fewer than two tokens never
    joins a name of two or more. *)
Theorem names_join (medallist medal : string) :
  normalizeName medallist true = normalizeName medal false
  ↔ match firstTwo (tokens medallist), firstTwo (tokens medal) with
    | Some (a0, a1), Some (b0, b1) =>
        toLowerCase a1 = toLowerCase b0 ∧ toLowerCase a0 = toLowerCase b1
    | None, None => toLowerCase medallist = toLowerCase medal
    | _, _ => False
    end.
Proof.
  rewrite !normalizeName_tokens.
  destruct (firstTwo (tokens medallist)) as [[a0 a1]|] eqn:Ha,
           (firstTwo (tokens medal)) as [[b0 b1]|] eqn:Hb; [| | | done].
  - apply firstTwo_tokens in Ha as (? & ? & ? & ?), Hb as (? & ? & ? & ?).
    split; [| by intros [-> ->]].
    intros Heq. apply (f_equal tokens) in Heq.
    rewrite !key_tokens in Heq by done. by injection Heq.
  - apply firstTwo_tokens in Ha as (? & ? & ? & ?).
    split; [| done]. intros Heq.
    apply (f_equal (λ s, firstTwo (tokens s))) in Heq.
    rewrite key_tokens, tokens_toLowerCase, firstTwo_fmap, Hb in Heq by done.
    done.
  - apply firstTwo_tokens in Hb as (? & ? & ? & ?).
    split; [| done]. intros Heq.
    apply (f_equal (λ s, firstTwo (tokens s))) in Heq.
    rewrite key_tokens, tokens_toLowerCase, firstTwo_fmap, Ha in Heq by done.
    done.
Qed.

(** ** Canonical countries and the choropleth *)

Lemma aliases_canonical :
  Forall (λ kv : string * string,
            kv.2 ≠ "" ∧ (kv.2 ∉ Object_prototype)
            ∧ (ownProperty kv.2 = None ∨ ownProperty kv.2 = Some kv.2))
         COUNTRY_ALIASES.
Proof. apply (bool_decide_unpack _). by vm_compute. Qed.

Lemma normalizeCountry_Str (s : string) :
  s ≠ "" → s ∉ Object_prototype →
  ownProperty s = None ∨ ownProperty s = Some s →
  normalizeCountry (Some s) None = Some (Str s).
Proof.
  intros Hs Hp Hown. unfold normalizeCountry. simpl.
  rewrite bool_decide_eq_false_2 by done. unfold getProperty.
  destruct Hown as [-> | ->]; [| done]. by rewrite decide_False.
Qed.

(** X20: the results of [normalizeCountry] classified: a string result is
    never empty and is a fixed point, canonicalising it again returns it
    unchanged; a result that is not a string arises only from a label that
    names an inherited property; and null arises only when neither label is
    given and non-empty.  So the guard [if (!name) return] of the counting
    loop skips exactly the rows without a label. *)
Theorem normalizeCountry_results (country countryLong : option string) :
  match normalizeCountry country countryLong with
  | Some (Str s) => s ≠ "" ∧ normalizeCountry (Some s) None = Some (Str s)
  | Some (Builtin p) => p ∈ Object_prototype ∧ chosen country countryLong = Some p
  | None => chosen country countryLong = None
  end
  ∧ falsyValue (normalizeCountry country countryLong)
    = bool_decide (chosen country countryLong = None).
Proof.
  rewrite normalizeCountry_chosen.
  destruct (chosen country countryLong) as [raw|] eqn:Hraw; simpl; [| done].
  assert (raw ≠ "") as Hne.
  { unfold chosen in Hraw. destruct (present countryLong) eqn:Hl.
    - injection Hraw as ->. by eapply present_nonempty.
    - by eapply present_nonempty. }
  unfold getProperty.
  destruct (ownProperty raw) as [canonical|] eqn:Hown; simpl.
  - apply ownProperty_elem in Hown.
    pose proof (proj1 (Forall_forall _ _) aliases_canonical _ Hown) as (? & ? & ?).
    simpl in *. split; [| by apply bool_decide_eq_false_2].
    split; [done |]. by apply normalizeCountry_Str.
  - case_decide as Hp; simpl; [done |].
    split; [| by apply bool_decide_eq_false_2].
    split; [done |]. apply normalizeCountry_Str; auto.
Qed.

Lemma loadAthletes_pos (data : list Row.t) (c : Value) (n : nat) :
  loadAthletes data !! c = Some n →
  1 ≤ n ∧ n = length (filter (λ d, countryOf d = Some c) data).
Proof.
  rewrite loadAthletes_lookup. destruct (length _) as [|m]; [done |].
  intros [= <-]. lia.
Qed.

(** X21: the counts do not depend on the order of the rows: two tables with
    the same rows in any order give the same map. *)
Theorem loadAthletes_order (data1 data2 : list Row.t) :
  data1 ≡ₚ data2 → loadAthletes data1 = loadAthletes data2.
Proof.
  intros Hperm. apply map_eq. intros c. rewrite !loadAthletes_lookup.
  by rewrite Hperm.
Qed.

Lemma loadAthletes_order_witness :
  [athlete "USA" None; athlete "China" None]
    ≡ₚ [athlete "China" None; athlete "USA" None]
  ∧ loadAthletes [athlete "USA" None; athlete "China" None]
    = loadAthletes [athlete "China" None; athlete "USA" None].
Proof.
  assert ([athlete "USA" None; athlete "China" None]
            ≡ₚ [athlete "China" None; athlete "USA" None]) as Hp
    by apply Permutation_swap.
  split; [exact Hp |]. exact (loadAthletes_order _ _ Hp).
Defined.

Lemma counts_total_insert (m : gmap Value nat) (k : Value) (v : nat) :
  sum_list (map_to_list (<[k := v]> m)).*2 + default 0 (m !! k)
  = v + sum_list (map_to_list m).*2.
Proof.
  destruct (m !! k) as [n|] eqn:Hk; simpl.
  - rewrite <- (insert_delete_eq m k v).
    rewrite <- (insert_delete_id m k n Hk) at 2.
    rewrite !map_to_list_insert by apply lookup_delete_eq. csimpl. unfold id. lia.
  - rewrite map_to_list_insert by done. csimpl. unfold id. lia.
Qed.

Lemma loadAthletes_total (data : list Row.t) :
  sum_list (map_to_list (loadAthletes data)).*2
  = length (filter (λ d, countryOf d ≠ None) data).
Proof.
  unfold loadAthletes.
  induction data as [|d data IH] using rev_ind;
    [simpl; by rewrite map_to_list_empty |].
  rewrite foldl_app, filter_app, length_app, <- IH. simpl.
  rewrite filter_cons, filter_nil. unfold countRow at 1. fold (countryOf d).
  destruct (countryOf d) as [key|] eqn:Hkey.
  - unfold countryOf in Hkey. rewrite (normalizeCountry_truthy _ _ _ Hkey).
    rewrite decide_True by done. simpl.
    pose proof (counts_total_insert (foldl countRow ∅ data) key
                  (default 0 (foldl countRow ∅ data !! key) + 1)). lia.
  - rewrite decide_False by (intros H; by apply H). simpl. lia.
Qed.

Lemma loadAthletes_size (data : list Row.t) :
  size (loadAthletes data) ≤ length data.
Proof.
  unfold loadAthletes.
  induction data as [|d data IH] using rev_ind;
    [simpl; by rewrite map_size_empty |].
  rewrite foldl_app, length_app. simpl. unfold countRow at 1.
  destruct (normalizeCountry _ _) as [key|]; [| lia].
  destruct (falsyValue _); [lia |].
  destruct (foldl countRow ∅ data !! key) eqn:Hk.
  - rewrite map_size_insert_Some by eauto. lia.
  - rewrite map_size_insert_None by done. lia.
Qed.

(** X22: every row with a country label is counted once: the counts of all
    countries add up to the number of rows for which [normalizeCountry] is
    not null; the map has no more keys than there are rows; and the counts of
    two tables laid end to end are the sums of their counts. *)
Theorem loadAthletes_account (data more : list Row.t) (c : Value) :
  sum_list (map_to_list (loadAthletes data)).*2
  = length (filter (λ d, countryOf d ≠ None) data)
  ∧ size (loadAthletes data) ≤ length data
  ∧ default 0 (loadAthletes (data ++ more) !! c)
    = default 0 (loadAthletes data !! c) + default 0 (loadAthletes more !! c).
Proof.
  split_and!; [apply loadAthletes_total | apply loadAthletes_size |].
  rewrite !loadAthletes_lookup, filter_app, length_app.
  by destruct (length (filter _ data)), (length (filter _ more)).
Qed.

(** X23: a country shape of the map is grey exactly when no row canonicalises
    to its name; otherwise it is coloured by its count, which is the number of
    such rows and lies between 1 and [maxAthletes]; and [maxAthletes] is 0
    only for the empty map. *)
Theorem map_fill (data : list Row.t) (name : string) :
  let counts := loadAthletes data in
  (MapView.fill counts name = MapView.NoData
   ↔ filter (λ d, countryOf d = Some (Str name)) data = [])
  ∧ match MapView.fill counts name with
    | MapView.Scaled n =>
        1 ≤ n ∧ n ≤ MapView.maxAthletes counts
        ∧ n = length (filter (λ d, countryOf d = Some (Str name)) data)
    | MapView.NoData => True
    end
  ∧ (MapView.maxAthletes counts = 0 ↔ counts = ∅).
Proof.
  intros counts.
  assert (∀ c n, counts !! c = Some n → 1 ≤ n ∧ n ≤ MapView.maxAthletes counts)
    as Hbound.
  { intros c n Hc. split; [by apply loadAthletes_pos in Hc as [? _] |].
    unfold MapView.maxAthletes.
    pose proof (max_spec (map_to_list counts).*2 id) as Hmax.
    assert (n ∈ (map_to_list counts).*2) as Hn.
    { apply list_elem_of_fmap. exists (c, n). split; [done |].
      by apply elem_of_map_to_list. }
    destruct (D3Scale.max _ id) as [m|]; simpl.
    - destruct Hmax as [Hall _]. by apply (proj1 (Forall_forall _ _) Hall n).
    - rewrite Hmax in Hn. by apply not_elem_of_nil in Hn. }
  split_and!.
  - unfold MapView.fill. subst counts. rewrite loadAthletes_lookup.
    destruct (filter _ data) as [|d r]; simpl; [done |].
    split; [| done]. by destruct (decide (S (length r) = 0)).
  - unfold MapView.fill. destruct (counts !! Str name) as [n|] eqn:Hn; [| done].
    destruct (Hbound _ _ Hn) as [? ?]. rewrite decide_False by lia.
    split_and!; try done. by apply loadAthletes_pos in Hn as [_ ?].
  - split; [| intros ->; by vm_compute].
    intros Hzero. apply map_empty. intros c.
    destruct (counts !! c) as [n|] eqn:Hc; [| done].
    destruct (Hbound _ _ Hc). lia.
Qed.

(** ** Grouping *)

Lemma push_concat {A K} `{EqDecision K} (k : K) (v : A) (gs : list (K * list A)) :
  mjoin (D3.push k v gs).*2 ≡ₚ v :: mjoin gs.*2.
Proof.
  induction gs as [|[k' g] gs IH]; csimpl; [done |].
  case_decide; csimpl.
  - rewrite <- app_assoc. simpl. symmetry. apply Permutation_middle.
  - rewrite IH. symmetry. apply Permutation_middle.
Qed.

Lemma groups_concat {A K} `{EqDecision K} (values : list A) (keyof : A → K) :
  mjoin (D3.groups values keyof).*2 ≡ₚ values.
Proof.
  induction values as [|v values IH] using rev_ind; [done |].
  rewrite groups_snoc, push_concat, IH. by rewrite <- Permutation_cons_append.
Qed.

(** X24: [d3.rollups] partitions the values: every key has one group, no
    group is empty, a group holds the values of its key in their original
    order, and the groups together hold every value exactly once. *)
Theorem groups_partition {A K} `{EqDecision K} (values : list A) (keyof : A → K) :
  NoDup (D3.groups values keyof).*1
  ∧ Forall (λ kg, kg.2 ≠ [] ∧ kg.2 = filter (λ v, keyof v = kg.1) values)
           (D3.groups values keyof)
  ∧ mjoin (D3.groups values keyof).*2 ≡ₚ values
  ∧ (D3.rollups values length keyof).*1 = firsts (keyof <$> values)
  ∧ sum_list (D3.rollups values length keyof).*2 = length values.
Proof.
  split_and!.
  - rewrite groups_spec, fmap_fst_pair. apply firsts_NoDup.
  - rewrite groups_spec. apply Forall_fmap, Forall_forall.
    intros k (v & -> & Hv)%firsts_elem_of%list_elem_of_fmap. simpl.
    split; [| done]. intros Hnil.
    assert (v ∈ filter (λ v', keyof v' = keyof v) values) as Hin
      by (by apply list_elem_of_filter).
    rewrite Hnil in Hin. by apply not_elem_of_nil in Hin.
  - apply groups_concat.
  - apply rollups_keys.
  - rewrite <- (groups_total values keyof). unfold D3.rollups.
    induction (D3.groups values keyof) as [|kg gs IH]; csimpl; [done |].
    by rewrite IH.
Qed.
